(** * The passage-title search page: CSV ingestion and the derived-state pipeline

    A shallow embedding of [App.tsx] and of the properties of its ingestion /
    filter / search / sort / page pipeline.  The repository keeps two variants
    of the component; both are embedded:

    - [Main]: the variant with the character-scanning CSV parser
      [parseCsvLine], the blank-row filter, cascading filter selections and a
      sort key;
    - [Alt]: the variant that splits data lines with a regular expression,
      keeps every row, has independent filter selections and one fixed sort
      column.

    Strings are byte strings holding the UTF-8 encoding of the JavaScript
    string.  The characters the code inspects (double quote, comma, carriage
    return, line feed) are one byte each and never occur inside a longer UTF-8
    sequence, so scanning bytes and scanning UTF-16 code units cut a text at
    the same places.  Row objects ([Record<string, string>]) are finite maps
    from column name to cell value. *)

From Stdlib Require Import ZArith Ascii String List Bool Lia OrderedTypeEx Sorted.
From stdpp Require Import base option list gmap strings pretty.
Import ListNotations.

Local Open Scope string_scope.
Local Open Scope list_scope.

(** ** Part I: the embedding *)

(** *** Characters and string primitives of the host language *)

Definition DQUOTE : ascii := "034"%char.
Definition COMMA : ascii := ","%char.
Definition CR : ascii := "013"%char.
Definition LF : ascii := "010"%char.

(** [s + c] for a one-character [c]. *)
Definition snoc (s : string) (c : ascii) : string := s +:+ String c EmptyString.

(** A string value in a boolean position: the empty string is falsy. *)
Definition truthy (s : string) : bool := negb (String.eqb s EmptyString).

(** [s.includes(t)]. *)
Fixpoint includes (s t : string) : bool :=
  String.prefix t s ||
  match s with
  | EmptyString => false
  | String _ s' => includes s' t
  end.

(** [s.split(',')]: cut at every comma. *)
Fixpoint split_go (s : string) (cur : string) : list string :=
  match s with
  | EmptyString => [cur]
  | String c rest =>
      if Ascii.eqb c COMMA then cur :: split_go rest EmptyString
      else split_go rest (snoc cur c)
  end.

Definition split_comma (s : string) : list string := split_go s EmptyString.

(** [s.split(/\r?\n/)]: cut at every line feed, taking a carriage return
    that stands right before it along. *)
Fixpoint split_lines_go (s : string) (cur : string) : list string :=
  match s with
  | EmptyString => [cur]
  | String c rest =>
      if Ascii.eqb c LF then cur :: split_lines_go rest EmptyString
      else
        match rest with
        | String c' rest' =>
            if Ascii.eqb c CR && Ascii.eqb c' LF
            then cur :: split_lines_go rest' EmptyString
            else split_lines_go rest (snoc cur c)
        | EmptyString => split_lines_go rest (snoc cur c)
        end
  end.

Definition split_lines (s : string) : list string := split_lines_go s EmptyString.

(** The white space and line terminators that [trim] removes, each as its
    UTF-8 encoding: U+0009 to U+000D, U+0020, U+00A0, U+1680, U+2000 to
    U+200A, U+2028, U+2029, U+202F, U+205F, U+3000 and U+FEFF. *)
Definition bytes (l : list nat) : string :=
  string_of_list_ascii (map ascii_of_nat l).

Definition WHITESPACE : list string :=
  map bytes
    [ [9]; [10]; [11]; [12]; [13]; [32]; [194; 160]; [225; 154; 128];
      [226; 128; 128]; [226; 128; 129]; [226; 128; 130]; [226; 128; 131];
      [226; 128; 132]; [226; 128; 133]; [226; 128; 134]; [226; 128; 135];
      [226; 128; 136]; [226; 128; 137]; [226; 128; 138]; [226; 128; 168];
      [226; 128; 169]; [226; 128; 175]; [226; 129; 159]; [227; 128; 128];
      [239; 187; 191] ].

Fixpoint string_rev (s : string) : string :=
  match s with
  | EmptyString => EmptyString
  | String c rest => snoc (string_rev rest) c
  end.

Fixpoint drop_prefix (p s : string) : option string :=
  match p, s with
  | EmptyString, _ => Some s
  | String a p', String b s' => if Ascii.eqb a b then drop_prefix p' s' else None
  | String _ _, EmptyString => None
  end.

(** Remove one leading pattern of [pats], if any stands at the start. *)
Fixpoint drop_one (pats : list string) (s : string) : option string :=
  match pats with
  | [] => None
  | p :: ps =>
      match drop_prefix p s with
      | Some s' => Some s'
      | None => drop_one ps s
      end
  end.

Fixpoint drop_all (pats : list string) (fuel : nat) (s : string) : string :=
  match fuel with
  | O => s
  | S fuel' =>
      match drop_one pats s with
      | Some s' => drop_all pats fuel' s'
      | None => s
      end
  end.

Definition trimStart (s : string) : string :=
  drop_all WHITESPACE (String.length s) s.

Definition trimEnd (s : string) : string :=
  string_rev (drop_all (map string_rev WHITESPACE) (String.length s) (string_rev s)).

(** [s.trim()]. *)
Definition trim (s : string) : string := trimEnd (trimStart s).

(** A quote that ends the string (the second alternative of the pattern
    below). *)
Fixpoint strip_trailing_quote (s : string) : string :=
  match s with
  | EmptyString => EmptyString
  | String c EmptyString => if Ascii.eqb c DQUOTE then EmptyString else s
  | String c rest => String c (strip_trailing_quote rest)
  end.

(** [s.replace(/^Q|Q$/g, '')], writing Q for the double quote character:
    drop a quote that starts the string, then a quote that ends what is
    left. *)
Definition strip_quotes (s : string) : string :=
  strip_trailing_quote
    match s with
    | String c rest => if Ascii.eqb c DQUOTE then rest else s
    | EmptyString => s
    end.

(** [s.replace(/QQ/g, 'Q')]: every pair of quotes, found left to right,
    becomes one quote. *)
Fixpoint unescape (s : string) : string :=
  match s with
  | String c (String c' rest as tl) =>
      if Ascii.eqb c DQUOTE && Ascii.eqb c' DQUOTE
      then String DQUOTE (unescape rest)
      else String c (unescape tl)
  | _ => s
  end.

(** [value.trim().replace(/^Q|Q$/g, '').replace(/QQ/g, 'Q')]. *)
Definition normalize (value : string) : string :=
  unescape (strip_quotes (trim value)).

(** *** The CSV line parser *)

(** The loop of [parseCsvLine] from index [i] on: [line] holds the characters
    from [i], so [line\[i + 1\]] is the head of [rest]; the three mutable
    variables are threaded as arguments. *)
Fixpoint scan (line : string) (inQuotes : bool) (currentVal : string)
    (values : list string) : list string :=
  match line with
  | EmptyString => values ++ [currentVal]
  | String char rest =>
      if Ascii.eqb char DQUOTE then
        match inQuotes, rest with
        | true, String next rest' =>
            if Ascii.eqb next DQUOTE
            then scan rest' inQuotes (snoc currentVal DQUOTE) values
            else scan rest (negb inQuotes) currentVal values
        | _, _ => scan rest (negb inQuotes) currentVal values
        end
      else if Ascii.eqb char COMMA && negb inQuotes then
        scan rest inQuotes EmptyString (values ++ [currentVal])
      else
        scan rest inQuotes (snoc currentVal char) values
  end.

Definition parseCsvLine (line : string) : list string :=
  scan line false EmptyString [].

(** The split of the other variant,
    [line.split(/,(?=(?:(?:[^Q]*Q){2})*[^Q]*$)/)]: the expression matches a
    comma when the text after it, up to the end of the line, holds an even
    number of quotes; the pieces between the matches are returned as they
    stand, quotes included. *)
Fixpoint count_quotes (s : string) : nat :=
  match s with
  | EmptyString => 0
  | String c rest => (if Ascii.eqb c DQUOTE then 1 else 0) + count_quotes rest
  end.

Fixpoint regex_split_go (s : string) (cur : string) : list string :=
  match s with
  | EmptyString => [cur]
  | String c rest =>
      if Ascii.eqb c COMMA && Nat.even (count_quotes rest)
      then cur :: regex_split_go rest EmptyString
      else regex_split_go rest (snoc cur c)
  end.

Definition regex_split (line : string) : list string :=
  regex_split_go line EmptyString.

(** *** The quoting rules, as the specification words them

    A second definition, written from the four rules of the parser contract
    and not from the code, to compare the two splitters with:
    - a quote toggles the quoted state, unless the scanner is inside a quoted
      field and the next character is a quote too: then one literal quote is
      added to the field and the scanner advances two characters;
    - a comma separates fields only outside a quoted field;
    - any other character belongs to the current field;
    - the end of the line ends the last field, whatever the quoted state. *)
Record Scanner := { quoted : bool; field : string; emitted : list string }.

Inductive rule : string -> Scanner -> string -> Scanner -> Prop :=
| rule_escaped_quote rest f out :
    rule (String DQUOTE (String DQUOTE rest))
         {| quoted := true; field := f; emitted := out |}
         rest
         {| quoted := true; field := snoc f DQUOTE; emitted := out |}
| rule_toggle rest b f out :
    (b = true -> forall rest', rest <> String DQUOTE rest') ->
    rule (String DQUOTE rest)
         {| quoted := b; field := f; emitted := out |}
         rest
         {| quoted := negb b; field := f; emitted := out |}
| rule_separator rest f out :
    rule (String COMMA rest)
         {| quoted := false; field := f; emitted := out |}
         rest
         {| quoted := false; field := EmptyString; emitted := out ++ [f] |}
| rule_literal c rest b f out :
    c <> DQUOTE ->
    (c = COMMA -> b = true) ->
    rule (String c rest)
         {| quoted := b; field := f; emitted := out |}
         rest
         {| quoted := b; field := snoc f c; emitted := out |}.

Inductive rules_yield : string -> Scanner -> list string -> Prop :=
| yield_end st :
    rules_yield EmptyString st (emitted st ++ [field st])
| yield_step input st rest st' fields :
    rule input st rest st' ->
    rules_yield rest st' fields ->
    rules_yield input st fields.

(** [fields] is the reading of [line] under the quoting rules. *)
Definition conforms (line : string) (fields : list string) : Prop :=
  rules_yield line {| quoted := false; field := EmptyString; emitted := [] |} fields.

(** *** Which fields of a line were quoted, and writing them back *)

(** The number of commas of the line that stand inside a quoted field. *)
Fixpoint quoted_commas_go (line : string) (inQuotes : bool) : nat :=
  match line with
  | EmptyString => 0
  | String char rest =>
      if Ascii.eqb char DQUOTE then
        match inQuotes, rest with
        | true, String next rest' =>
            if Ascii.eqb next DQUOTE
            then quoted_commas_go rest' inQuotes
            else quoted_commas_go rest (negb inQuotes)
        | _, _ => quoted_commas_go rest (negb inQuotes)
        end
      else
        (if Ascii.eqb char COMMA && inQuotes then 1 else 0)
        + quoted_commas_go rest inQuotes
  end.

Definition quoted_commas (line : string) : nat := quoted_commas_go line false.

(** The quoted state in which the scanner reaches the end of the line; the
    quoting of a line is balanced when it ends outside a quoted field. *)
Fixpoint final_inQuotes (line : string) (inQuotes : bool) : bool :=
  match line with
  | EmptyString => inQuotes
  | String char rest =>
      if Ascii.eqb char DQUOTE then
        match inQuotes, rest with
        | true, String next rest' =>
            if Ascii.eqb next DQUOTE
            then final_inQuotes rest' inQuotes
            else final_inQuotes rest (negb inQuotes)
        | _, _ => final_inQuotes rest (negb inQuotes)
        end
      else final_inQuotes rest inQuotes
  end.

Definition balanced (line : string) : bool := negb (final_inQuotes line false).

(** [scan] with one more variable, [wasQuoted]: whether a quote character
    has been met in the current field.  Each field comes out with that
    mark. *)
Fixpoint scan_marked (line : string) (inQuotes : bool) (wasQuoted : bool)
    (currentVal : string) (values : list (bool * string)) : list (bool * string) :=
  match line with
  | EmptyString => values ++ [(wasQuoted, currentVal)]
  | String char rest =>
      if Ascii.eqb char DQUOTE then
        match inQuotes, rest with
        | true, String next rest' =>
            if Ascii.eqb next DQUOTE
            then scan_marked rest' inQuotes true (snoc currentVal DQUOTE) values
            else scan_marked rest (negb inQuotes) true currentVal values
        | _, _ => scan_marked rest (negb inQuotes) true currentVal values
        end
      else if Ascii.eqb char COMMA && negb inQuotes then
        scan_marked rest inQuotes false EmptyString (values ++ [(wasQuoted, currentVal)])
      else
        scan_marked rest inQuotes wasQuoted (snoc currentVal char) values
  end.

Definition parse_marked (line : string) : list (bool * string) :=
  scan_marked line false false EmptyString [].

(** Every quote of a value doubled. *)
Fixpoint escape (s : string) : string :=
  match s with
  | EmptyString => EmptyString
  | String c rest =>
      if Ascii.eqb c DQUOTE then String DQUOTE (String DQUOTE (escape rest))
      else String c (escape rest)
  end.

(** A field written back: between quotes, its quotes doubled, when it was
    quoted; as it stands otherwise. *)
Definition write_field (f : bool * string) : string :=
  if fst f then String DQUOTE (escape (snd f) +:+ String DQUOTE EmptyString)
  else snd f.

(** The fields joined with the comma delimiter. *)
Fixpoint rejoin (fields : list (bool * string)) : string :=
  match fields with
  | [] => EmptyString
  | [f] => write_field f
  | f :: fs => write_field f +:+ String COMMA (rejoin fs)
  end.

(** *** The host: case conversion and collation

    [String.prototype.toLowerCase] and [String.prototype.localeCompare] are
    services of the JavaScript engine (Unicode case mapping and the collation
    of [Intl.Collator]); the program only calls them.  They are an interface
    here, and every property below holds for every host.  The first argument
    of [localeCompare] is the [locales] argument of the call, [None] when the
    call passes none and the engine falls back to its default locale. *)
Class Host := {
  toLowerCase : string -> string;
  localeCompare : option string -> string -> string -> Z
}.

(** What the language asks of a comparison function for [sort] to be
    specified (a consistent comparator): swapping the arguments swaps the
    sign, and the order it induces is transitive. *)
Record Consistent {A : Type} (cmp : A -> A -> Z) : Prop := {
  consistent_antisym : forall a b, Z.sgn (cmp b a) = (- Z.sgn (cmp a b))%Z;
  consistent_trans : forall a b c, (cmp a b <= 0)%Z -> (cmp b c <= 0)%Z -> (cmp a c <= 0)%Z
}.

(** A collation is a consistent comparator in every locale. *)
Definition Collation (H : Host) : Prop :=
  forall locales, Consistent (localeCompare locales).

(** [Array.prototype.sort(cmp)].  For a consistent comparator the language
    fixes the result: the permutation in the comparator's order that keeps
    the input order of elements comparing equal.  Insertion into the sorted
    tail, in front of the first element that is not smaller, computes it. *)
Fixpoint insert_by {A : Type} (cmp : A -> A -> Z) (x : A) (sorted : list A) : list A :=
  match sorted with
  | [] => [x]
  | y :: rest =>
      if (cmp x y <=? 0)%Z then x :: sorted else y :: insert_by cmp x rest
  end.

Definition array_sort {A : Type} (cmp : A -> A -> Z) (l : list A) : list A :=
  fold_right (insert_by cmp) [] l.

(** [l.slice(start, end)]: a negative index counts from the end, and both
    are clamped to the list. *)
Definition relative_index (len i : Z) : Z :=
  if (i <? 0)%Z then Z.max (len + i) 0 else Z.min i len.

Definition slice {A : Type} (l : list A) (start finish : Z) : list A :=
  let len := Z.of_nat (length l) in
  let k := relative_index len start in
  let final := relative_index len finish in
  firstn (Z.to_nat (final - k)) (skipn (Z.to_nat k) l).

(** A sequence is in the order of [cmp] when the comparator is not positive
    on any adjacent pair. *)
Definition sorted_by {A : Type} (cmp : A -> A -> Z) (l : list A) : Prop :=
  forall (i : nat) (a b : A),
    nth_error l i = Some a -> nth_error l (S i) = Some b -> (cmp a b <= 0)%Z.

(** *** Configuration and state shared by the two variants *)

(** A row object: every header written to it is a key of the map. *)
Abbreviation RowData := (gmap string string).

Record DisplayColumn := { header : string }.

Definition SEARCHABLE_COLUMNS : list string := ["작품명/지문명"].
Definition FILTERABLE_COLUMNS : list string := ["수록교재"; "대단원"; "중단원"].
Definition DISPLAY_COLUMNS : list DisplayColumn :=
  [ {| header := "작품명/지문명" |};
    {| header := "수록교재" |};
    {| header := "대단원" |};
    {| header := "중단원" |} ].

(** [DISPLAY_COLUMNS\[i\].header], for the indices 0 to 3 the code uses. *)
Definition display_header (i : nat) : string :=
  match nth_error DISPLAY_COLUMNS i with
  | Some c => header c
  | None => EmptyString
  end.

Definition ITEMS_PER_PAGE : Z := 20.

(** [row\[col\] || '']. *)
Definition cell (row : RowData) (col : string) : string :=
  match row !! col with
  | Some v => v
  | None => EmptyString
  end.

(** [row\[col\] === filterValue]. *)
Definition cell_is (col filterValue : string) (row : RowData) : bool :=
  bool_decide (row !! col = Some filterValue).

(** [SEARCHABLE_COLUMNS.some(col => row\[col\] &&
    String(row\[col\]).toLowerCase().includes(lowercasedTerm))]. *)
Definition matchesSearch `{Host} (lowercasedTerm : string) (row : RowData) : bool :=
  existsb
    (fun col =>
       match row !! col with
       | Some v => truthy v && includes (toLowerCase v) lowercasedTerm
       | None => false
       end)
    SEARCHABLE_COLUMNS.

(** The one name under which an assignment of a string to a plain object
    stores nothing: [__proto__] is an accessor of [Object.prototype], and its
    setter ignores a value that is neither an object nor [null]. *)
Definition PROTO : string := "__proto__".

(** The reducer over the headers: [obj\[header\] = normalize(values\[index\]
    || '')], for [index] counting up from the given one.  The assignment
    makes the header a key of the object, but for the header [__proto__]. *)
Fixpoint reduce_headers (headers : list string) (index : nat) (values : list string)
    (obj : RowData) : RowData :=
  match headers with
  | [] => obj
  | header :: later =>
      let value := match nth_error values index with
                   | Some v => v
                   | None => EmptyString
                   end in
      reduce_headers later (S index) values
        (if String.eqb header PROTO then obj
         else <[header := normalize value]> obj)
  end.

(** [lines\[0\].split(',').map(h => h.trim().replace(/^Q|Q$/g, ''))]. *)
Definition headers_of (headerLine : string) : list string :=
  map (fun h => strip_quotes (trim h)) (split_comma headerLine).

(** [Object.values(row).some(value => value && value.trim() !== '')]. *)
Definition has_content (row : RowData) : bool :=
  existsb
    (fun kv => truthy (snd kv) && negb (String.eqb (trim (snd kv)) EmptyString))
    (map_to_list row).

(** How a fetch ends: [fetch] or [response.text()] rejects with an error
    carrying a message, or a response arrives with a status and a body. *)
Inductive FetchOutcome :=
| Rejected (message : string)
| Responded (status : Z) (csvText : string).

(** [response.ok]. *)
Definition response_ok (status : Z) : bool :=
  (200 <=? status)%Z && (status <=? 299)%Z.

Definition MSG_FETCH_FAILED (status : Z) : string :=
  "데이터를 가져오는 데 실패했습니다. (상태: " +:+ pretty status +:+ ")".
Definition MSG_SHEET_EMPTY : string :=
  "시트가 비어 있거나 헤더 행만 포함되어 있습니다.".
Definition MSG_UNEXPECTED : string :=
  "예기치 않은 오류가 발생했습니다.".

(** The state the fetcher writes: the hooks [data], [isLoading], [error],
    [lastUpdated] and the ref [isInitialMount]. *)
Record Feed := {
  data : list RowData;
  isLoading : bool;
  error : option string;
  lastUpdated : option Z;
  isInitialMount : bool
}.

Definition setData (v : list RowData) (s : Feed) : Feed :=
  {| data := v; isLoading := isLoading s; error := error s;
     lastUpdated := lastUpdated s; isInitialMount := isInitialMount s |}.
Definition setIsLoading (v : bool) (s : Feed) : Feed :=
  {| data := data s; isLoading := v; error := error s;
     lastUpdated := lastUpdated s; isInitialMount := isInitialMount s |}.
Definition setError (v : option string) (s : Feed) : Feed :=
  {| data := data s; isLoading := isLoading s; error := v;
     lastUpdated := lastUpdated s; isInitialMount := isInitialMount s |}.
Definition setLastUpdated (v : option Z) (s : Feed) : Feed :=
  {| data := data s; isLoading := isLoading s; error := error s;
     lastUpdated := v; isInitialMount := isInitialMount s |}.
Definition setIsInitialMount (v : bool) (s : Feed) : Feed :=
  {| data := data s; isLoading := isLoading s; error := error s;
     lastUpdated := lastUpdated s; isInitialMount := v |}.

(** The feed state of a freshly mounted component. *)
Definition initial_feed : Feed :=
  {| data := []; isLoading := true; error := None;
     lastUpdated := None; isInitialMount := true |}.

(** A run of [fetchData] is two steps, each of them synchronous.  The first
    goes from the call to the first [await]: the loading flag is raised on
    the first load and the error is cleared. *)
Definition fetchStart (s0 : Feed) : Feed :=
  let s1 := if isInitialMount s0 then setIsLoading true s0 else s0 in
  setError None s1.

(** The second step goes from the point where the run resumes for the last
    time (the fetch has rejected, the status is no success, or the body has
    arrived) to the end of the [finally] block, given how the rows are built
    from the lines ([rows_of], which is where the two variants differ) and
    the clock reading [now] of [new Date()].  It reads the state and the ref
    [isInitialMount] as they are when it runs: the timer starts runs without
    waiting for the one in flight, so another run may have started or ended
    since this one started. *)
Definition fetchEnd (rows_of : list string -> list RowData)
    (outcome : FetchOutcome) (now : Z) (s2 : Feed) : Feed :=
  let s3 :=
    match outcome with
    | Rejected message =>
        setError (Some (if truthy message then message else MSG_UNEXPECTED)) s2
    | Responded status csvText =>
        if negb (response_ok status) then
          setError (Some (MSG_FETCH_FAILED status)) s2
        else
          let lines := split_lines (trim csvText) in
          let s :=
            if (length lines <? 2)%nat then
              let s := setData [] s2 in
              if isInitialMount s then setError (Some MSG_SHEET_EMPTY) s else s
            else
              setData (rows_of lines) s2 in
          setLastUpdated (Some now) s
    end in
  if isInitialMount s3
  then setIsInitialMount false (setIsLoading false s3)
  else s3.

(** A run that no other run overlaps: its two steps, one after the other. *)
Definition fetchData_with (rows_of : list string -> list RowData)
    (outcome : FetchOutcome) (now : Z) (s0 : Feed) : Feed :=
  fetchEnd rows_of outcome now (fetchStart s0).

(** The states of the fetcher when runs may overlap: any interleaving of
    starts and ends in which [pending] runs have started and not ended. *)
Inductive feed_overlapped (rows_of : list string -> list RowData)
    : nat -> Feed -> Prop :=
| overlapped_mounted : feed_overlapped rows_of 0 initial_feed
| overlapped_started pending s :
    feed_overlapped rows_of pending s ->
    feed_overlapped rows_of (S pending) (fetchStart s)
| overlapped_ended pending s outcome now :
    feed_overlapped rows_of (S pending) s ->
    feed_overlapped rows_of pending (fetchEnd rows_of outcome now s).

(** [l.indexOf(x)], with [None] for the result -1. *)
Fixpoint indexOf (x : string) (l : list string) : option nat :=
  match l with
  | [] => None
  | y :: rest =>
      if String.eqb y x then Some 0
      else match indexOf x rest with
           | Some i => Some (S i)
           | None => None
           end
  end.

(** [Math.ceil(n / ITEMS_PER_PAGE)] for a length [n]. *)
Definition page_count (n : nat) : Z :=
  ((Z.of_nat n + ITEMS_PER_PAGE - 1) / ITEMS_PER_PAGE)%Z.

(** The [useMemo] of [paginatedData]. *)
Definition page_window {A : Type} (filteredData : list A) (currentPage : Z) : list A :=
  let startIndex := ((currentPage - 1) * ITEMS_PER_PAGE)%Z in
  slice filteredData startIndex (startIndex + ITEMS_PER_PAGE)%Z.

(** *** The variant with the character-scanning parser *)

Module Main.

(** The rows published by a fetch with at least two lines. *)
Definition rows_of (lines : list string) : list RowData :=
  let headers := headers_of (hd EmptyString lines) in
  List.filter has_content
    (map (fun line => reduce_headers headers 0 (parseCsvLine line) ∅) (tl lines)).

Definition fetchData : FetchOutcome -> Z -> Feed -> Feed :=
  fetchData_with rows_of.

(** The updater that [handleFilterChange] passes to [setFilters]. *)
Definition handleFilterChange (column value : string) (prev : gmap string string)
    : gmap string string :=
  let newFilters :=
    if truthy value then <[column := value]> prev else delete column prev in
  match indexOf column FILTERABLE_COLUMNS with
  | Some filterIndex =>
      fold_left (fun m lower => delete lower m)
        (skipn (S filterIndex) FILTERABLE_COLUMNS) newFilters
  | None => newFilters
  end.

Definition handleResetFilters : gmap string string := ∅.

(** The loop over [FILTERABLE_COLUMNS]. *)
Definition applyFilters (filters : gmap string string) (data : list RowData)
    : list RowData :=
  fold_left
    (fun results col =>
       match filters !! col with
       | Some filterValue =>
           if truthy filterValue
           then List.filter (cell_is col filterValue) results
           else results
       | None => results
       end)
    FILTERABLE_COLUMNS data.

(** The search step. *)
Definition applySearch `{Host} (searchTerm : string) (results : list RowData)
    : list RowData :=
  let lowercasedTerm := toLowerCase searchTerm in
  if truthy searchTerm
  then List.filter (matchesSearch lowercasedTerm) results
  else results.

(** The comparison function handed to [sort]. *)
Definition compareRows `{Host} (sortKey : string) (a b : RowData) : Z :=
  if String.eqb sortKey (display_header 1) then
    let textbookCompare :=
      localeCompare (Some "ko") (cell a (display_header 1)) (cell b (display_header 1)) in
    if negb (textbookCompare =? 0)%Z then textbookCompare
    else
      let mainUnitCompare :=
        localeCompare (Some "ko") (cell a (display_header 2)) (cell b (display_header 2)) in
      if negb (mainUnitCompare =? 0)%Z then mainUnitCompare
      else
        localeCompare (Some "ko") (cell a (display_header 3)) (cell b (display_header 3))
  else
    let valA := cell a sortKey in
    let valB := cell b sortKey in
    localeCompare (Some "ko") valA valB.

(** The [useMemo] of [filteredData]: the Result Sequence. *)
Definition filteredData `{Host} (data : list RowData) (searchTerm : string)
    (filters : gmap string string) (sortKey : string) : list RowData :=
  array_sort (compareRows sortKey) (applySearch searchTerm (applyFilters filters data)).

(** The component state: the fetcher's, and the hooks [searchTerm],
    [filters], [sortKey] and [currentPage].  [filtersRef] stands for the
    identity of the object held by [filters]: [setFilters] is only ever given
    a fresh object, and a dependency list compares objects by identity. *)
Record App := {
  feed : Feed;
  searchTerm : string;
  filters : gmap string string;
  filtersRef : nat;
  sortKey : string;
  currentPage : Z
}.

Definition initial : App :=
  {| feed := initial_feed; searchTerm := EmptyString; filters := ∅; filtersRef := 0;
     sortKey := display_header 0; currentPage := 1 |}.

Definition setCurrentPage (page : Z) (s : App) : App :=
  {| feed := feed s; searchTerm := searchTerm s; filters := filters s;
     filtersRef := filtersRef s; sortKey := sortKey s; currentPage := page |}.

Definition setFilters (f : gmap string string) (s : App) : App :=
  {| feed := feed s; searchTerm := searchTerm s; filters := f;
     filtersRef := S (filtersRef s); sortKey := sortKey s; currentPage := currentPage s |}.

(** What the user and the timer can do to the component. *)
Inductive Event :=
| SearchInput (value : string)
| FilterSelect (column value : string)
| FiltersReset
| SortSelect (key : string)
| PageSelect (page : Z)
| FetchDone (outcome : FetchOutcome) (now : Z).

(** The state update each event handler requests. *)
Definition handle (ev : Event) (s : App) : App :=
  match ev with
  | SearchInput value =>
      {| feed := feed s; searchTerm := value; filters := filters s;
         filtersRef := filtersRef s; sortKey := sortKey s; currentPage := currentPage s |}
  | FilterSelect column value =>
      setFilters (handleFilterChange column value (filters s)) s
  | FiltersReset => setFilters handleResetFilters s
  | SortSelect key =>
      {| feed := feed s; searchTerm := searchTerm s; filters := filters s;
         filtersRef := filtersRef s; sortKey := key; currentPage := currentPage s |}
  | PageSelect page => setCurrentPage page s
  | FetchDone outcome now =>
      {| feed := fetchData outcome now (feed s); searchTerm := searchTerm s;
         filters := filters s; filtersRef := filtersRef s; sortKey := sortKey s;
         currentPage := currentPage s |}
  end.

(** [useEffect(() => setCurrentPage(1), \[searchTerm, filters, sortKey\])]:
    after a render, the effect runs when a dependency differs from its value
    at the previous render. *)
Definition dependencies_changed (prev next : App) : bool :=
  negb (String.eqb (searchTerm prev) (searchTerm next))
  || negb (Nat.eqb (filtersRef prev) (filtersRef next))
  || negb (String.eqb (sortKey prev) (sortKey next)).

Definition resetPageEffect (prev next : App) : App :=
  if dependencies_changed prev next then setCurrentPage 1 next else next.

(** One transition: the handler's update, then the effects of the render it
    causes. *)
Definition dispatch (ev : Event) (s : App) : App :=
  resetPageEffect s (handle ev s).

(** The states the component can be in: the mounted one, and what the events
    make of it. *)
Inductive reachable : App -> Prop :=
| reachable_initial : reachable initial
| reachable_dispatch s ev : reachable s -> reachable (dispatch ev s).

Definition results `{Host} (s : App) : list RowData :=
  filteredData (data (feed s)) (searchTerm s) (filters s) (sortKey s).

Definition totalPages `{Host} (s : App) : Z := page_count (length (results s)).

Definition paginatedData `{Host} (s : App) : list RowData :=
  page_window (results s) (currentPage s).

End Main.

(** *** The variant with the regular-expression split *)

Module Alt.

(** The rows published by a fetch with at least two lines. *)
Definition rows_of (lines : list string) : list RowData :=
  let headers := headers_of (hd EmptyString lines) in
  map (fun line => reduce_headers headers 0 (regex_split line) ∅) (tl lines).

Definition fetchData : FetchOutcome -> Z -> Feed -> Feed :=
  fetchData_with rows_of.

(** The updater that [handleFilterChange] passes to [setFilters]. *)
Definition handleFilterChange (column value : string) (prev : gmap string string)
    : gmap string string :=
  <[column := value]> prev.

(** [FILTERABLE_COLUMNS.every(col => !filters\[col\] || row\[col\] ===
    filters\[col\])]. *)
Definition filterMatch (filters : gmap string string) (row : RowData) : bool :=
  forallb
    (fun col =>
       match filters !! col with
       | Some filterValue => negb (truthy filterValue) || cell_is col filterValue row
       | None => true
       end)
    FILTERABLE_COLUMNS.

(** The predicate of [data.filter]. *)
Definition keep `{Host} (searchTerm : string) (filters : gmap string string)
    (row : RowData) : bool :=
  let lowercasedTerm := toLowerCase searchTerm in
  if negb (filterMatch filters row) then false
  else if negb (truthy searchTerm) then true
  else matchesSearch lowercasedTerm row.

(** The comparison function handed to [sort]: no locale is passed. *)
Definition compareRows `{Host} (a b : RowData) : Z :=
  let sortKey := display_header 0 in
  let valA := cell a sortKey in
  let valB := cell b sortKey in
  localeCompare None valA valB.

(** The [useMemo] of [filteredData]: the Result Sequence. *)
Definition filteredData `{Host} (data : list RowData) (searchTerm : string)
    (filters : gmap string string) : list RowData :=
  array_sort compareRows (List.filter (keep searchTerm filters) data).

Record App := {
  feed : Feed;
  searchTerm : string;
  filters : gmap string string;
  filtersRef : nat;
  currentPage : Z
}.

Definition initial : App :=
  {| feed := initial_feed; searchTerm := EmptyString; filters := ∅; filtersRef := 0;
     currentPage := 1 |}.

Definition setCurrentPage (page : Z) (s : App) : App :=
  {| feed := feed s; searchTerm := searchTerm s; filters := filters s;
     filtersRef := filtersRef s; currentPage := page |}.

Definition setFilters (f : gmap string string) (s : App) : App :=
  {| feed := feed s; searchTerm := searchTerm s; filters := f;
     filtersRef := S (filtersRef s); currentPage := currentPage s |}.

Inductive Event :=
| SearchInput (value : string)
| FilterSelect (column value : string)
| PageSelect (page : Z)
| FetchDone (outcome : FetchOutcome) (now : Z).

Definition handle (ev : Event) (s : App) : App :=
  match ev with
  | SearchInput value =>
      {| feed := feed s; searchTerm := value; filters := filters s;
         filtersRef := filtersRef s; currentPage := currentPage s |}
  | FilterSelect column value =>
      setFilters (handleFilterChange column value (filters s)) s
  | PageSelect page => setCurrentPage page s
  | FetchDone outcome now =>
      {| feed := fetchData outcome now (feed s); searchTerm := searchTerm s;
         filters := filters s; filtersRef := filtersRef s;
         currentPage := currentPage s |}
  end.

(** [useEffect(() => setCurrentPage(1), \[searchTerm, filters\])]. *)
Definition dependencies_changed (prev next : App) : bool :=
  negb (String.eqb (searchTerm prev) (searchTerm next))
  || negb (Nat.eqb (filtersRef prev) (filtersRef next)).

Definition resetPageEffect (prev next : App) : App :=
  if dependencies_changed prev next then setCurrentPage 1 next else next.

Definition dispatch (ev : Event) (s : App) : App :=
  resetPageEffect s (handle ev s).

Definition results `{Host} (s : App) : list RowData :=
  filteredData (data (feed s)) (searchTerm s) (filters s).

Definition totalPages `{Host} (s : App) : Z := page_count (length (results s)).

Definition paginatedData `{Host} (s : App) : list RowData :=
  page_window (results s) (currentPage s).

End Alt.

(** *** A concrete host, to run the definitions

    Case conversion of the letters A to Z only, and comparison of the bytes
    in their numeric order, the same in every locale. *)
Definition ascii_lower (c : ascii) : ascii :=
  let n := nat_of_ascii c in
  if (65 <=? n)%nat && (n <=? 90)%nat then ascii_of_nat (n + 32) else c.

Fixpoint ascii_toLowerCase (s : string) : string :=
  match s with
  | EmptyString => EmptyString
  | String c rest => String (ascii_lower c) (ascii_toLowerCase rest)
  end.

Definition byte_compare (a b : string) : Z :=
  match String.compare a b with
  | Lt => (-1)%Z
  | Eq => 0%Z
  | Gt => 1%Z
  end.

Definition byte_host : Host :=
  {| toLowerCase := ascii_toLowerCase; localeCompare := fun _ => byte_compare |}.

(** *** A host whose default collation is not the Korean one

    In the way of an engine set to an English locale: with no locale the
    strings are compared byte by byte, which puts Latin before Hangul; with a
    locale given (the program only ever gives the Korean one) a string that
    starts beyond ASCII, as a Hangul title does, stands before one that
    starts in ASCII. *)
Definition starts_beyond_ascii (s : string) : bool :=
  match s with
  | EmptyString => false
  | String c _ => (128 <=? nat_of_ascii c)%nat
  end.

Definition hangul_first_compare (a b : string) : Z :=
  match starts_beyond_ascii a, starts_beyond_ascii b with
  | true, false => (-1)%Z
  | false, true => 1%Z
  | _, _ => byte_compare a b
  end.

Definition english_default_host : Host :=
  {| toLowerCase := ascii_toLowerCase;
     localeCompare := fun locales =>
       match locales with
       | Some _ => hangul_first_compare
       | None => byte_compare
       end |}.

(** *** The vocabulary of the properties *)

(** The first comparison decides unless it is zero; then the second does. *)
Definition tie_break {A : Type} (first second : A -> A -> Z) (a b : A) : Z :=
  if negb (first a b =? 0)%Z then first a b else second a b.

(** [a] may stand before [b]. *)
Definition in_order {A : Type} (cmp : A -> A -> Z) (a b : A) : Prop :=
  (cmp a b <= 0)%Z.

(** The three variables of the loop of [parseCsvLine], as a state of the
    rules. *)
Definition state_of (inQuotes : bool) (currentVal : string) (values : list string)
    : Scanner :=
  {| quoted := inQuotes; field := currentVal; emitted := values |}.

(** A value that can stand unquoted: it holds no quote and no comma. *)
Fixpoint plain (s : string) : bool :=
  match s with
  | EmptyString => true
  | String c rest => negb (Ascii.eqb c DQUOTE) && negb (Ascii.eqb c COMMA) && plain rest
  end.

(** Marked fields that can be written back: the unquoted ones are plain. *)
Definition writable (fields : list (bool * string)) : Prop :=
  Forall (fun f => fst f = false -> plain (snd f) = true) fields.

(** A column with an active filter: a filterable column whose selection
    holds a value, the empty selection standing for no filter. *)
Definition active_filter (filters : gmap string string) (col value : string) : Prop :=
  In col FILTERABLE_COLUMNS /\ filters !! col = Some value /\ value <> EmptyString.

(** The row holds the term, case ignored, in a searchable column. *)
Definition search_hit `{Host} (term : string) (row : RowData) : Prop :=
  exists col v,
    In col SEARCHABLE_COLUMNS
    /\ row !! col = Some v
    /\ includes (toLowerCase v) (toLowerCase term) = true.

(** The comparison of two rows on one column, in Korean collation. *)
Definition ko_compare `{Host} (col : string) (a b : RowData) : Z :=
  localeCompare (Some "ko") (cell a col) (cell b col).

(** A chain of comparisons stops at the first one that is not zero. *)
Fixpoint first_nonzero (comparisons : list Z) : Z :=
  match comparisons with
  | [] => 0%Z
  | [c] => c
  | c :: later => if (c =? 0)%Z then first_nonzero later else c
  end.





(** *** Sample inputs *)

(** One double quote character, to build the test lines. *)
Definition Q : string := String DQUOTE EmptyString.

(** The line a, then b,c between quotes, then d. *)
Definition LINE_QUOTED_COMMA : string :=
  "a," +:+ Q +:+ "b,c" +:+ Q +:+ ",d".

(** The line a, then b, two quotes and c between quotes, then d. *)
Definition LINE_ESCAPED_QUOTE : string :=
  "a," +:+ Q +:+ "b" +:+ Q +:+ Q +:+ "c" +:+ Q +:+ ",d".

(** A line with two commas inside quoted fields: a,b between quotes, a space
    and x, then c,d between quotes. *)
Definition LINE_TWO_QUOTED_COMMAS : string :=
  Q +:+ "a,b" +:+ Q +:+ " x," +:+ Q +:+ "c,d" +:+ Q.

(** A record of the index: a title, the textbook, the major unit and the
    minor unit. *)
Definition sample_row (title textbook mainUnit subUnit : string) : RowData :=
  <["작품명/지문명" := title]>
    (<["수록교재" := textbook]>
       (<["대단원" := mainUnit]> (<["중단원" := subUnit]> ∅))).

Definition SAMPLE_DATA : list RowData :=
  [ sample_row "Spring Night" "Literature B" "Poetry" "Modern";
    sample_row "The Wings" "Literature A" "Prose" "Modern";
    sample_row "Night Rain" "Literature A" "Poetry" "Classic";
    sample_row "Azaleas" "Literature A" "Poetry" "Modern" ].

(** A selection on the textbook, and none (the empty value) on the minor
    unit. *)
Definition SAMPLE_FILTERS : gmap string string :=
  <["수록교재" := "Literature A"]> (<["중단원" := EmptyString]> ∅).

(** The titles of a sequence of records, to read results by. *)
Definition titles (rows : list RowData) : list string :=
  map (fun row => cell row "작품명/지문명") rows.

(** One line feed, to build the test bodies. *)
Definition LF_ : string := String LF EmptyString.

(** A feed with a header line and two data rows. *)
Definition BODY_TWO_ROWS : string :=
  "title,book" +:+ LF_ +:+ "Azaleas,Literature A" +:+ LF_ +:+ "The Wings,Literature B".

(** A feed with nothing but the header line. *)
Definition BODY_HEADER_ONLY : string := "title,book" +:+ LF_.

(** A feed whose first data row is blank. *)
Definition BODY_BLANK_ROW : string :=
  "title,book" +:+ LF_ +:+ "," +:+ LF_ +:+ "Azaleas,Literature A".

(** The record built from a row of empty fields under the header of
    [BODY_BLANK_ROW]. *)
Definition BLANK_RECORD : RowData :=
  <["title" := EmptyString]> (<["book" := EmptyString]> ∅).



(** The first run is in flight when the timer starts a second one, and the
    second ends first, with a body that is the header line alone. *)
Definition FEED_TIMER_RUN_ENDED : Feed :=
  fetchEnd Main.rows_of (Responded 200 BODY_HEADER_ONLY) 1
    (fetchStart (fetchStart initial_feed)).

(** The component after the fetcher has written [feed]: the view state is
    as it was. *)
Definition with_feed (feed : Feed) (s : Main.App) : Main.App :=
  {| Main.feed := feed; Main.searchTerm := Main.searchTerm s;
     Main.filters := Main.filters s; Main.filtersRef := Main.filtersRef s;
     Main.sortKey := Main.sortKey s; Main.currentPage := Main.currentPage s |}.

(** Two records, one with a Latin title and one with a Hangul title. *)
Definition LATIN_AND_HANGUL : list RowData :=
  [ sample_row "진달래꽃" "Literature A" "Poetry" "Modern";
    sample_row "Azaleas" "Literature A" "Poetry" "Modern" ].

(** *** More of the component: option lists, the page strip, the view *)

(** [\[...new Set(xs)\]]: the first occurrence of each value, in the order
    of the list; [seen] holds the values met so far. *)
Fixpoint unique_go (xs seen : list string) : list string :=
  match xs with
  | [] => []
  | x :: rest =>
      if existsb (String.eqb x) seen then unique_go rest seen
      else x :: unique_go rest (x :: seen)
  end.

Definition unique (xs : list string) : list string := unique_go xs [].

(** [data.map(row => row\[col\]).filter(Boolean)]: the values of the column
    that are neither missing nor empty, row by row. *)
Definition column_values (col : string) (data : list RowData) : list string :=
  flat_map
    (fun row =>
       match row !! col with
       | Some v => if truthy v then [v] else []
       | None => []
       end)
    data.

(** [uniqueValues.sort((a, b) => a.localeCompare(b))] over the values of
    one column: the option list of a dropdown. *)
Definition options_of `{Host} (col : string) (data : list RowData) : list string :=
  array_sort (localeCompare None) (unique (column_values col data)).

(** The [useMemo] of [filterOptions] (both variants). *)
Definition filterOptions `{Host} (data : list RowData) : gmap string (list string) :=
  fold_left (fun options col => <[col := options_of col data]> options)
    FILTERABLE_COLUMNS ∅.

(** One turn of the filter loop: the rows that hold the selected value of
    the column, or all rows when the column has no selection. *)
Definition filter_step (filters : gmap string string) (results : list RowData)
    (col : string) : list RowData :=
  match filters !! col with
  | Some filterValue =>
      if truthy filterValue
      then List.filter (cell_is col filterValue) results
      else results
  | None => results
  end.

(** The filter loop over the columns [cols]. *)
Definition filter_through (cols : list string) (filters : gmap string string)
    (data : list RowData) : list RowData :=
  fold_left (filter_step filters) cols data.

(** The [useMemo] of [dynamicFilterOptions]: the state of the [forEach] is
    the options built so far and [temp_data]. *)
Definition dynamicFilterOptions `{Host} (filters : gmap string string)
    (data : list RowData) : gmap string (list string) :=
  fst
    (fold_left
       (fun state col =>
          (<[col := options_of col (snd state)]> (fst state),
           filter_step filters (snd state) col))
       FILTERABLE_COLUMNS (∅, data)).

(** An entry of the page strip: a page number or the three dots. *)
Inductive PageItem :=
| PageNumber (page : Z)
| Ellipsis.

(** [for (let i = first; ...; i++) pages.push(i)], [count] turns. *)
Fixpoint range_from (first : Z) (count : nat) : list PageItem :=
  match count with
  | O => []
  | S k => PageNumber first :: range_from (first + 1) k
  end.

(** [for (let i = first; i <= last; i++) pages.push(i)]. *)
Definition page_range (first last : Z) : list PageItem :=
  range_from first (Z.to_nat (last - first + 1)).

(** [getPageNumbers] of [PaginationControls]. *)
Definition getPageNumbers (currentPage totalPages : Z) : list PageItem :=
  let maxPagesToShow := 5%Z in
  let halfPages := (maxPagesToShow / 2)%Z in
  if (totalPages <=? maxPagesToShow)%Z then page_range 1 totalPages
  else
    let startPage0 := Z.max 1 (currentPage - halfPages) in
    let endPage0 := Z.min totalPages (currentPage + halfPages) in
    let endPage :=
      if (currentPage - 1 <=? halfPages)%Z then maxPagesToShow else endPage0 in
    let startPage :=
      if (totalPages - currentPage <=? halfPages)%Z
      then (totalPages - maxPagesToShow + 1)%Z else startPage0 in
    (if (1 <? startPage)%Z
     then PageNumber 1 :: (if (2 <? startPage)%Z then [Ellipsis] else [])
     else [])
    ++ page_range startPage endPage
    ++ (if (endPage <? totalPages)%Z
        then (if (endPage <? totalPages - 1)%Z then [Ellipsis] else [])
             ++ [PageNumber totalPages]
        else []).

(** The buttons of [PaginationControls]. *)
Inductive Control :=
| PreviousButton
| NextButton
| NumberButton (page : Z).

Definition is_page (page : Z) (item : PageItem) : bool :=
  match item with
  | PageNumber n => (n =? page)%Z
  | Ellipsis => false
  end.

(** What [onPageChange] receives from a click: nothing from a disabled
    button or from a number that the strip does not show. *)
Definition click (currentPage totalPages : Z) (control : Control) : option Z :=
  match control with
  | PreviousButton =>
      if (currentPage =? 1)%Z then None else Some (currentPage - 1)%Z
  | NextButton =>
      if (currentPage =? totalPages)%Z then None else Some (currentPage + 1)%Z
  | NumberButton page =>
      if existsb (is_page page) (getPageNumbers currentPage totalPages)
      then Some page else None
  end.

(** What the result area of the component shows. *)
Inductive View :=
| Spinner
| ErrorBanner (message : string)
| Table (rows : list RowData)
| NoResults
| NoData.

(** [Object.values(filters).some(v => v)]. *)
Definition some_filter (filters : gmap string string) : bool :=
  existsb (fun kv => truthy (snd kv)) (map_to_list filters).

(** The conditional of the result area:
    [isLoading ? spinner : error ? banner : (filteredData.length > 0 ? table
    : empty state)]. *)
Definition main_view `{Host} (s : Main.App) : View :=
  let content :=
    if (0 <? length (Main.results s))%nat then Table (Main.paginatedData s)
    else if truthy (Main.searchTerm s) || some_filter (Main.filters s)
         then NoResults else NoData in
  if isLoading (Main.feed s) then Spinner
  else
    match error (Main.feed s) with
    | Some message => if truthy message then ErrorBanner message else content
    | None => content
    end.

(** The states the fetcher can leave behind, whatever the rows are built
    with. *)
Inductive feed_reachable (rows_of : list string -> list RowData) : Feed -> Prop :=
| feed_initial : feed_reachable rows_of initial_feed
| feed_fetched s outcome now :
    feed_reachable rows_of s ->
    feed_reachable rows_of (fetchData_with rows_of outcome now s).

(** The number of commas of a line. *)
Fixpoint count_commas (s : string) : nat :=
  match s with
  | EmptyString => 0
  | String c rest => (if Ascii.eqb c COMMA then 1 else 0) + count_commas rest
  end.

(** The row passes the search: a searchable column holds a value that is
    not empty and whose lower case includes the lower-cased term. *)
Definition search_match `{Host} (term : string) (row : RowData) : Prop :=
  exists col v,
    In col SEARCHABLE_COLUMNS
    /\ row !! col = Some v
    /\ v <> EmptyString
    /\ includes (toLowerCase v) (toLowerCase term) = true.

(** The page numbers of a strip, the dots left out. *)
Definition numbers (items : list PageItem) : list Z :=
  flat_map (fun item => match item with PageNumber n => [n] | Ellipsis => [] end) items.

(** A strip read after the page [prev]: each number is the page after its
    predecessor, and three dots stand between two numbers, with at least one
    page hidden between them. *)
Fixpoint linked (prev : Z) (items : list PageItem) : Prop :=
  match items with
  | [] => True
  | PageNumber n :: rest => n = (prev + 1)%Z /\ linked n rest
  | Ellipsis :: PageNumber n :: rest => (prev + 1 < n)%Z /\ linked n rest
  | Ellipsis :: _ => False
  end.

(** A fetch that fails: it rejects, or the response is no success. *)
Definition failed (outcome : FetchOutcome) : bool :=
  match outcome with
  | Rejected _ => true
  | Responded status _ => negb (response_ok status)
  end.

(** A dataset of 45 records and the component showing one of its pages. *)
Definition SAMPLE_45 : list RowData :=
  repeat (sample_row "Azaleas" "Literature A" "Poetry" "Modern") 45.

Definition sample_app (page : Z) : Main.App :=
  {| Main.feed := setIsInitialMount false (setIsLoading false (setData SAMPLE_45 initial_feed));
     Main.searchTerm := EmptyString; Main.filters := ∅; Main.filtersRef := 0;
     Main.sortKey := display_header 0; Main.currentPage := page |}.


(** The record is selected: it is in the dataset, holds the selected value
    in every filterable column with a non-empty selection and, when the term
    is not empty, passes the search. *)
Definition selected `{Host} (data : list RowData) (term : string)
    (filters : gmap string string) (row : RowData) : Prop :=
  In row data
  /\ (forall col v, active_filter filters col v -> row !! col = Some v)
  /\ (term <> EmptyString -> search_match term row).

(** *** The highlight of the search term *)

(** The characters of the class that [HighlightedText] escapes: the hyphen,
    the slash, the backslash and the characters with a meaning in a regular
    expression. *)
Definition BACKSLASH : ascii := "092"%char.

Definition REGEX_SPECIAL : list ascii :=
  [ "-"; "/"; BACKSLASH; "^"; "$"; "*"; "+"; "?"; "."; "("; ")"; "|"; "[";
    "]"; "{"; "}" ]%char.

Definition is_special (c : ascii) : bool := existsb (Ascii.eqb c) REGEX_SPECIAL.

(** [highlight.replace(/\[special\]/g, '\\$&')]: a backslash before every
    character of the class. *)
Fixpoint escapeHighlight (highlight : string) : string :=
  match highlight with
  | EmptyString => EmptyString
  | String c rest =>
      if is_special c then String BACKSLASH (String c (escapeHighlight rest))
      else String c (escapeHighlight rest)
  end.

(** Which of the two early returns of [HighlightedText] is taken, if any:
    the text is then rendered as it stands, with no mark. *)
Inductive HighlightGuard :=
| NothingToHighlight
| EmptyPattern
| PatternBuilt (escapedHighlight : string).

Definition highlight_guard (text : option string) (highlight : string)
    : HighlightGuard :=
  if negb (truthy (trim highlight))
     || negb (match text with Some t => truthy t | None => false end)
  then NothingToHighlight
  else
    let escapedHighlight := escapeHighlight highlight in
    if negb (truthy escapedHighlight) then EmptyPattern
    else PatternBuilt escapedHighlight.

(** ** Part II: properties *)

(** *** Strings *)

Lemma append_cons (c : ascii) (s t : string) :
  String c s +:+ t = String c (s +:+ t).
Proof. reflexivity. Qed.

Lemma append_empty_l (s : string) : EmptyString +:+ s = s.
Proof. reflexivity. Qed.

Lemma append_empty_r (s : string) : s +:+ EmptyString = s.
Proof.
  induction s as [|c s IH]; [reflexivity |].
  now rewrite append_cons, IH.
Qed.

Lemma append_assoc (s t u : string) : (s +:+ t) +:+ u = s +:+ (t +:+ u).
Proof.
  induction s as [|c s IH]; [reflexivity |].
  now rewrite !append_cons, IH.
Qed.

Lemma snoc_append (s : string) (c : ascii) (t : string) :
  snoc s c +:+ t = s +:+ String c t.
Proof. unfold snoc. now rewrite append_assoc. Qed.

Lemma length_cons (c : ascii) (s : string) :
  String.length (String c s) = S (String.length s).
Proof. reflexivity. Qed.

(** The rest of a line is shorter than the line. *)
Ltac shorter := rewrite ?length_cons; lia.

(** Induction on strings by length: the scanner advances by one character or
    by two. *)
Lemma string_length_ind (P : string -> Prop) :
  (forall s, (forall t, (String.length t < String.length s)%nat -> P t) -> P s) ->
  forall s, P s.
Proof.
  intros step s.
  remember (String.length s) as n eqn:Hn.
  revert s Hn.
  induction n as [n IH] using lt_wf_ind.
  intros s ->. apply step. intros t Ht. exact (IH _ Ht t eq_refl).
Qed.

(** *** The scanner follows the quoting rules *)

(** Every rule is one turn of the loop of [parseCsvLine]. *)
Lemma scan_rule input st rest st' :
  rule input st rest st' ->
  scan input (quoted st) (field st) (emitted st)
  = scan rest (quoted st') (field st') (emitted st').
Proof.
  intros R. destruct R as [rest f out | rest b f out Hnext | rest f out | c rest b f out Hc Hcomma];
    cbn [quoted field emitted].
  - reflexivity.
  - cbn [scan]. rewrite Ascii.eqb_refl.
    destruct b; [| reflexivity].
    destruct rest as [|next rest']; [reflexivity |].
    destruct (Ascii.eqb_spec next DQUOTE) as [-> | _]; [| reflexivity].
    now destruct (Hnext eq_refl rest').
  - reflexivity.
  - cbn [scan].
    destruct (Ascii.eqb_spec c DQUOTE) as [-> | _]; [now destruct Hc |].
    destruct (Ascii.eqb_spec c COMMA) as [Hcm | _]; [| reflexivity].
    now rewrite (Hcomma Hcm).
Qed.

(** In every state and before every character, one rule applies. *)
Lemma rule_total (c : ascii) (rest : string) (st : Scanner) :
  exists rest' st',
    rule (String c rest) st rest' st'
    /\ (String.length rest' < String.length (String c rest))%nat.
Proof.
  destruct st as [b f out].
  destruct (Ascii.eqb_spec c DQUOTE) as [-> | Hc].
  - destruct b.
    + destruct rest as [|next rest'].
      * eexists _, _. split; [apply rule_toggle; intros _ r; discriminate | shorter].
      * destruct (Ascii.eqb_spec next DQUOTE) as [-> | Hn].
        -- eexists _, _. split; [apply rule_escaped_quote | shorter].
        -- eexists _, _. split.
           ++ apply rule_toggle. intros _ r E. injection E as E _. now destruct Hn.
           ++ shorter.
    + eexists _, _. split; [apply rule_toggle; discriminate | shorter].
  - destruct (Ascii.eqb_spec c COMMA) as [-> | Hcm].
    + destruct b.
      * eexists _, _. split; [now apply rule_literal | shorter].
      * eexists _, _. split; [apply rule_separator | shorter].
    + eexists _, _. split; [apply rule_literal; [assumption | intros E; now destruct Hcm] | shorter].
Qed.

(** The scanner computes a reading that conforms to the rules... *)
Lemma scan_yields (line : string) :
  forall st, rules_yield line st (scan line (quoted st) (field st) (emitted st)).
Proof.
  induction line as [line IH] using string_length_ind.
  intros st. destruct line as [|c rest].
  - apply yield_end.
  - destruct (rule_total c rest st) as (rest' & st' & R & Hlt).
    rewrite (scan_rule _ _ _ _ R).
    eapply yield_step; [exact R | now apply IH].
Qed.

(** ... and the rules admit no other reading. *)
Lemma yields_scan line st fields :
  rules_yield line st fields ->
  fields = scan line (quoted st) (field st) (emitted st).
Proof.
  induction 1 as [st | input st rest st' fields R _ IH].
  - reflexivity.
  - now rewrite (scan_rule _ _ _ _ R).
Qed.

Lemma parseCsvLine_conforms (line : string) : conforms line (parseCsvLine line).
Proof. exact (scan_yields line (state_of false EmptyString [])). Qed.

Lemma conforms_unique (line : string) (fields : list string) :
  conforms line fields -> fields = parseCsvLine line.
Proof. intros Hc. exact (yields_scan _ _ _ Hc). Qed.

(** *** Writing fields back and reading them again *)

Lemma plain_snoc (s : string) (c : ascii) :
  plain s = true -> c <> DQUOTE -> c <> COMMA -> plain (snoc s c) = true.
Proof.
  intros Hs Hq Hc. induction s as [|d s IH]; simpl in *.
  - destruct (Ascii.eqb_spec c DQUOTE); [contradiction |].
    destruct (Ascii.eqb_spec c COMMA); [contradiction | reflexivity].
  - apply andb_true_iff in Hs as [Hd Hs]. rewrite Hd. simpl. now apply IH.
Qed.

Lemma scan_plain (v rest cur : string) (vals : list string) :
  plain v = true ->
  scan (v +:+ rest) false cur vals = scan rest false (cur +:+ v) vals.
Proof.
  revert cur. induction v as [|c v IH]; intros cur Hv.
  - now rewrite append_empty_r.
  - simpl in Hv. apply andb_true_iff in Hv as [Hc Hv].
    apply andb_true_iff in Hc as [Hq Hc].
    rewrite append_cons. cbn [scan].
    apply negb_true_iff in Hq, Hc. rewrite Hq, Hc. cbn [andb].
    rewrite (IH _ Hv). now rewrite snoc_append.
Qed.

Lemma scan_escaped (v rest cur : string) (vals : list string) :
  (forall r, rest <> String DQUOTE r) ->
  scan (escape v +:+ String DQUOTE rest) true cur vals
  = scan rest false (cur +:+ v) vals.
Proof.
  intros Hrest. revert cur. induction v as [|c v IH]; intros cur.
  - rewrite append_empty_r. cbn [escape]. rewrite append_empty_l.
    exact (scan_rule _ (state_of true cur vals) _ (state_of false cur vals)
             (rule_toggle rest true cur vals (fun _ => Hrest))).
  - cbn [escape]. destruct (Ascii.eqb_spec c DQUOTE) as [-> | Hc].
    + rewrite !append_cons. cbn [scan]. rewrite Ascii.eqb_refl.
      rewrite IH. now rewrite snoc_append.
    + rewrite append_cons. cbn [scan].
      destruct (Ascii.eqb_spec c DQUOTE) as [|_]; [contradiction |].
      rewrite andb_false_r. rewrite IH. now rewrite snoc_append.
Qed.

Lemma scan_write_field (f : bool * string) (rest cur : string) (vals : list string) :
  (fst f = false -> plain (snd f) = true) ->
  (forall r, rest <> String DQUOTE r) ->
  scan (write_field f +:+ rest) false cur vals
  = scan rest false (cur +:+ snd f) vals.
Proof.
  destruct f as [[|] v]; unfold write_field; cbn [fst snd]; intros Hplain Hrest.
  - rewrite append_cons, append_assoc, append_cons, append_empty_l. cbn [scan].
    rewrite Ascii.eqb_refl. cbn [negb]. now apply scan_escaped.
  - now apply scan_plain, Hplain.
Qed.

(** Reading what was written gives the written values back. *)
Lemma scan_rejoin (fields : list (bool * string)) :
  fields <> [] -> writable fields ->
  forall vals, scan (rejoin fields) false EmptyString vals = vals ++ map snd fields.
Proof.
  induction fields as [|f fs IH]; [congruence |].
  intros _ Hw vals. inversion Hw as [|? ? Hf Hfs]; subst.
  destruct fs as [|f' fs'].
  - cbn [rejoin map]. rewrite <- (append_empty_r (write_field f)).
    rewrite scan_write_field; [reflexivity | assumption | discriminate].
  - change (rejoin (f :: f' :: fs'))
      with (write_field f +:+ String COMMA (rejoin (f' :: fs'))).
    rewrite scan_write_field; [| assumption | intros r E; discriminate E].
    cbn [scan]. cbn [Ascii.eqb COMMA DQUOTE Bool.eqb andb negb].
    rewrite IH; [| discriminate | assumption].
    cbn [map]. now rewrite <- app_assoc.
Qed.

(** The marks do not change the values read. *)
Lemma scan_marked_values (line : string) :
  forall inQuotes wasQuoted cur vals,
    map snd (scan_marked line inQuotes wasQuoted cur vals)
    = scan line inQuotes cur (map snd vals).
Proof.
  induction line as [line IH] using string_length_ind.
  intros inQuotes wasQuoted cur vals. destruct line as [|c rest].
  - cbn [scan_marked scan]. now rewrite map_app.
  - cbn [scan_marked scan].
    destruct (Ascii.eqb c DQUOTE).
    + destruct inQuotes; [| apply IH; shorter].
      destruct rest as [|next rest']; [apply IH; shorter |].
      destruct (Ascii.eqb next DQUOTE); apply IH; shorter.
    + destruct (Ascii.eqb c COMMA && negb inQuotes).
      * rewrite IH by (shorter). now rewrite map_app.
      * apply IH; shorter.
Qed.

(** The fields read from a line can be written back: a field without a mark
    was read outside quotes, one plain character at a time. *)
Lemma scan_marked_writable (line : string) :
  forall inQuotes wasQuoted cur vals,
    (wasQuoted = false -> inQuotes = false /\ plain cur = true) ->
    writable vals ->
    writable (scan_marked line inQuotes wasQuoted cur vals).
Proof.
  induction line as [line IH] using string_length_ind.
  intros inQuotes wasQuoted cur vals Hcur Hvals. destruct line as [|c rest].
  - cbn [scan_marked]. apply Forall_app. split; [assumption |].
    constructor; [| constructor]. cbn [fst snd]. intros E. now apply Hcur.
  - cbn [scan_marked].
    destruct (Ascii.eqb_spec c DQUOTE) as [-> | Hq].
    + destruct inQuotes; [| apply IH; [shorter | discriminate | assumption]].
      destruct rest as [|next rest']; [apply IH; [shorter | discriminate | assumption] |].
      destruct (Ascii.eqb next DQUOTE); apply IH; (shorter) || discriminate || assumption.
    + destruct (Ascii.eqb_spec c COMMA) as [-> | Hc]; cbn [andb].
      * destruct inQuotes; cbn [negb].
        -- apply IH; [shorter | | assumption].
           intros E. now destruct (Hcur E).
        -- apply IH; [shorter | now split |].
           apply Forall_app. split; [assumption |].
           constructor; [| constructor]. cbn [fst snd]. intros E. now apply Hcur.
      * apply IH; [shorter | | assumption].
        intros E. destruct (Hcur E) as [-> Hp]. split; [reflexivity |].
        now apply plain_snoc.
Qed.

Lemma scan_marked_nonempty (line : string) :
  forall inQuotes wasQuoted cur vals,
    scan_marked line inQuotes wasQuoted cur vals <> [].
Proof.
  induction line as [line IH] using string_length_ind.
  intros inQuotes wasQuoted cur vals. destruct line as [|c rest].
  - cbn [scan_marked]. intros E. now apply app_eq_nil in E as [_ E].
  - cbn [scan_marked].
    destruct (Ascii.eqb c DQUOTE).
    + destruct inQuotes; [| apply IH; shorter].
      destruct rest as [|next rest']; [apply IH; shorter |].
      destruct (Ascii.eqb next DQUOTE); apply IH; shorter.
    + destruct (Ascii.eqb c COMMA && negb inQuotes); apply IH; shorter.
Qed.

Lemma parse_marked_values (line : string) :
  map snd (parse_marked line) = parseCsvLine line.
Proof. apply scan_marked_values. Qed.

(** Parse, write back, parse again: the same values, on every line. *)
Lemma reparse_any_line (line : string) :
  parseCsvLine (rejoin (parse_marked line)) = parseCsvLine line.
Proof.
  unfold parseCsvLine at 1.
  rewrite scan_rejoin.
  - apply parse_marked_values.
  - apply scan_marked_nonempty.
  - apply scan_marked_writable; [now split | constructor].
Qed.

(** The same for the marked scanner: the marks come back too. *)
Lemma scan_marked_plain (v rest cur : string) (wasQuoted : bool)
    (vals : list (bool * string)) :
  plain v = true ->
  scan_marked (v +:+ rest) false wasQuoted cur vals
  = scan_marked rest false wasQuoted (cur +:+ v) vals.
Proof.
  revert cur. induction v as [|c v IH]; intros cur Hv.
  - now rewrite append_empty_r.
  - simpl in Hv. apply andb_true_iff in Hv as [Hc Hv].
    apply andb_true_iff in Hc as [Hq Hc].
    rewrite append_cons. cbn [scan_marked].
    apply negb_true_iff in Hq, Hc. rewrite Hq, Hc. cbn [andb].
    rewrite (IH _ Hv). now rewrite snoc_append.
Qed.

Lemma scan_marked_escaped (v rest cur : string) (vals : list (bool * string)) :
  (forall r, rest <> String DQUOTE r) ->
  scan_marked (escape v +:+ String DQUOTE rest) true true cur vals
  = scan_marked rest false true (cur +:+ v) vals.
Proof.
  intros Hrest. revert cur. induction v as [|c v IH]; intros cur.
  - rewrite append_empty_r. cbn [escape]. rewrite append_empty_l.
    cbn [scan_marked]. rewrite Ascii.eqb_refl.
    destruct rest as [|next rest']; [reflexivity |].
    destruct (Ascii.eqb_spec next DQUOTE) as [-> | _]; [| reflexivity].
    now destruct (Hrest rest').
  - cbn [escape]. destruct (Ascii.eqb_spec c DQUOTE) as [-> | Hc].
    + rewrite !append_cons. cbn [scan_marked]. rewrite Ascii.eqb_refl.
      rewrite IH. now rewrite snoc_append.
    + rewrite append_cons. cbn [scan_marked].
      destruct (Ascii.eqb_spec c DQUOTE) as [|_]; [contradiction |].
      rewrite andb_false_r. rewrite IH. now rewrite snoc_append.
Qed.

Lemma scan_marked_write_field (f : bool * string) (rest : string)
    (vals : list (bool * string)) :
  (fst f = false -> plain (snd f) = true) ->
  (forall r, rest <> String DQUOTE r) ->
  scan_marked (write_field f +:+ rest) false false EmptyString vals
  = scan_marked rest false (fst f) (snd f) vals.
Proof.
  destruct f as [[|] v]; unfold write_field; cbn [fst snd]; intros Hplain Hrest.
  - rewrite append_cons, append_assoc, append_cons, append_empty_l.
    cbn [scan_marked]. rewrite Ascii.eqb_refl. cbn [negb].
    now rewrite scan_marked_escaped, append_empty_l.
  - rewrite scan_marked_plain by now apply Hplain. now rewrite append_empty_l.
Qed.

(** Reading what was written gives the written fields back, marks
    included. *)
Lemma scan_marked_rejoin (fields : list (bool * string)) :
  fields <> [] -> writable fields ->
  forall vals,
    scan_marked (rejoin fields) false false EmptyString vals = vals ++ fields.
Proof.
  induction fields as [|f fs IH]; [congruence |].
  intros _ Hw vals. inversion Hw as [|? ? Hf Hfs]; subst.
  destruct fs as [|f' fs'].
  - cbn [rejoin]. rewrite <- (append_empty_r (write_field f)).
    rewrite scan_marked_write_field; [| assumption | discriminate].
    cbn [scan_marked]. now destruct f.
  - change (rejoin (f :: f' :: fs'))
      with (write_field f +:+ String COMMA (rejoin (f' :: fs'))).
    rewrite scan_marked_write_field; [| assumption | intros r E; discriminate E].
    cbn [scan_marked]. cbn [Ascii.eqb COMMA DQUOTE Bool.eqb andb negb].
    rewrite IH; [| discriminate | assumption].
    rewrite <- app_assoc. now destruct f.
Qed.

Lemma parse_marked_rejoin (fields : list (bool * string)) :
  fields <> [] -> writable fields -> parse_marked (rejoin fields) = fields.
Proof.
  intros Hne Hw. unfold parse_marked. now rewrite scan_marked_rejoin.
Qed.

(** *** The parser on quoted fields *)

(** C4. Inside a quoted field a comma is a literal character of the field and
    a doubled quote becomes one literal quote; the two lines of the
    specification parse to the three fields it gives. *)
Theorem parseCsvLine_quoting :
  (forall rest cur vals,
      scan (String COMMA rest) true cur vals = scan rest true (snoc cur COMMA) vals)
  /\ (forall rest cur vals,
      scan (String DQUOTE (String DQUOTE rest)) true cur vals
      = scan rest true (snoc cur DQUOTE) vals)
  /\ parseCsvLine LINE_QUOTED_COMMA = ["a"; "b,c"; "d"]
  /\ parseCsvLine LINE_ESCAPED_QUOTE = ["a"; "b" +:+ Q +:+ "c"; "d"].
Proof. repeat split. Qed.

(** C5. For every line with balanced quoting: the marked fields of the line
    carry the values the parser returns, they can be written back (a field
    is left unquoted only when it holds no comma and no quote), and the line
    rejoined from them, the quoted fields between quotes with their quotes
    doubled, parses to the values of the original line, with the same fields
    quoted. *)
Theorem parse_rejoin_roundtrip (line : string) :
  balanced line = true ->
  map snd (parse_marked line) = parseCsvLine line
  /\ writable (parse_marked line)
  /\ parseCsvLine (rejoin (parse_marked line)) = parseCsvLine line
  /\ parse_marked (rejoin (parse_marked line)) = parse_marked line.
Proof.
  intros _.
  assert (writable (parse_marked line)) as Hw
      by (apply scan_marked_writable; [now split | constructor]).
  split; [apply parse_marked_values |]. split; [exact Hw |]. split.
  - apply reparse_any_line.
  - apply parse_marked_rejoin; [apply scan_marked_nonempty | exact Hw].
Qed.

Lemma parse_rejoin_roundtrip_witness :
  balanced LINE_ESCAPED_QUOTE = true
  /\ rejoin (parse_marked LINE_ESCAPED_QUOTE) = LINE_ESCAPED_QUOTE
  /\ parseCsvLine (rejoin (parse_marked LINE_ESCAPED_QUOTE))
     = parseCsvLine LINE_ESCAPED_QUOTE.
Proof.
  split; [reflexivity |]. split; [reflexivity |].
  apply (proj1 (proj2 (proj2 (parse_rejoin_roundtrip LINE_ESCAPED_QUOTE eq_refl)))).
Defined.

(** C6. The two splitters are not equivalent: on a line with two quoted
    commas the regular-expression split returns other fields than the
    character scanner, and the values stored from them differ too; and on
    every line with several quoted commas where the two differ, the
    scanner's fields are the reading under the quoting rules and the
    fields of the regular-expression split are not. *)
Theorem splitters_differ :
  (exists line,
      2 <= quoted_commas line
      /\ regex_split line <> parseCsvLine line
      /\ map normalize (regex_split line) <> map normalize (parseCsvLine line))
  /\ (forall line,
      2 <= quoted_commas line ->
      regex_split line <> parseCsvLine line ->
      conforms line (parseCsvLine line) /\ ~ conforms line (regex_split line)).
Proof.
  split.
  - exists LINE_TWO_QUOTED_COMMAS. split; [vm_compute; lia |]. split; discriminate.
  - intros line _ Hdiff. split; [apply parseCsvLine_conforms |].
    intros Hc. apply Hdiff. now apply conforms_unique.
Qed.

Lemma splitters_differ_witness :
  conforms LINE_TWO_QUOTED_COMMAS (parseCsvLine LINE_TWO_QUOTED_COMMAS)
  /\ ~ conforms LINE_TWO_QUOTED_COMMAS (regex_split LINE_TWO_QUOTED_COMMAS).
Proof.
  apply (proj2 splitters_differ LINE_TWO_QUOTED_COMMAS); [vm_compute; lia | discriminate].
Defined.

(** *** Consistent comparators and the sort *)

Section Comparators.

Context {A : Type}.

Lemma consistent_flip (cmp : A -> A -> Z) (a b : A) :
  Consistent cmp ->
  ((cmp a b < 0)%Z <-> (0 < cmp b a)%Z)
  /\ ((cmp a b = 0)%Z <-> (cmp b a = 0)%Z).
Proof.
  intros [Hanti _]. pose proof (Hanti a b) as E.
  destruct (cmp a b), (cmp b a); cbn in E; try discriminate; split; split; lia.
Qed.

Lemma consistent_lt_le (cmp : A -> A -> Z) (a b c : A) :
  Consistent cmp -> (cmp a b < 0)%Z -> (cmp b c <= 0)%Z -> (cmp a c < 0)%Z.
Proof.
  intros HC Hab Hbc.
  assert (cmp a c <= 0)%Z as Hac by (apply (consistent_trans _ HC a b c); lia).
  destruct (Z.eq_dec (cmp a c) 0%Z) as [E | ]; [| lia].
  apply (consistent_flip cmp a c HC) in E.
  assert (cmp b a <= 0)%Z by (apply (consistent_trans _ HC b c a); lia).
  apply (consistent_flip cmp a b HC) in Hab. lia.
Qed.

Lemma consistent_le_lt (cmp : A -> A -> Z) (a b c : A) :
  Consistent cmp -> (cmp a b <= 0)%Z -> (cmp b c < 0)%Z -> (cmp a c < 0)%Z.
Proof.
  intros HC Hab Hbc.
  assert (cmp a c <= 0)%Z as Hac by (apply (consistent_trans _ HC a b c); lia).
  destruct (Z.eq_dec (cmp a c) 0%Z) as [E | ]; [| lia].
  apply (consistent_flip cmp a c HC) in E.
  assert (cmp c b <= 0)%Z by (apply (consistent_trans _ HC c a b); lia).
  apply (consistent_flip cmp b c HC) in Hbc. lia.
Qed.

Lemma consistent_eq_trans (cmp : A -> A -> Z) (a b c : A) :
  Consistent cmp -> (cmp a b = 0)%Z -> (cmp b c = 0)%Z -> (cmp a c = 0)%Z.
Proof.
  intros HC Hab Hbc.
  assert (cmp a c <= 0)%Z by (apply (consistent_trans _ HC a b c); lia).
  apply (consistent_flip cmp a b HC) in Hab.
  apply (consistent_flip cmp b c HC) in Hbc.
  assert (cmp c a <= 0)%Z as Hca by (apply (consistent_trans _ HC c b a); lia).
  destruct (Z.eq_dec (cmp a c) 0%Z) as [E | Hne]; [assumption |].
  assert (cmp a c < 0)%Z as Hlt by lia.
  apply (consistent_flip cmp a c HC) in Hlt. lia.
Qed.

(** Comparing by a key keeps a comparator consistent. *)
Lemma consistent_on {B : Type} (key : A -> B) (cmp : B -> B -> Z) :
  Consistent cmp -> Consistent (fun a b => cmp (key a) (key b)).
Proof.
  intros [Hanti Htrans]. split.
  - intros a b. apply Hanti.
  - intros a b c. apply Htrans.
Qed.

Lemma consistent_tie_break (first second : A -> A -> Z) :
  Consistent first -> Consistent second -> Consistent (tie_break first second).
Proof.
  intros H1 H2. split.
  - intros a b. unfold tie_break.
    destruct (consistent_flip first a b H1) as [_ Hz].
    destruct (Z.eqb_spec (first a b) 0%Z) as [E | N];
      destruct (Z.eqb_spec (first b a) 0%Z) as [E' | N']; cbn [negb].
    + apply (consistent_antisym _ H2).
    + now destruct N'; apply Hz.
    + now destruct N; apply Hz.
    + apply (consistent_antisym _ H1).
  - intros a b c. unfold tie_break.
    destruct (Z.eqb_spec (first a b) 0%Z) as [Eab | Nab];
      destruct (Z.eqb_spec (first b c) 0%Z) as [Ebc | Nbc]; cbn [negb]; intros Hab Hbc.
    + rewrite (consistent_eq_trans first a b c H1 Eab Ebc). cbn [Z.eqb negb].
      now apply (consistent_trans _ H2 a b c).
    + assert (first a c < 0)%Z as Hlt
          by (apply (consistent_le_lt first a b c H1); lia).
      destruct (Z.eqb_spec (first a c) 0%Z); cbn [negb]; lia.
    + assert (first a c < 0)%Z as Hlt
          by (apply (consistent_lt_le first a b c H1); lia).
      destruct (Z.eqb_spec (first a c) 0%Z); cbn [negb]; lia.
    + assert (first a c < 0)%Z as Hlt
          by (apply (consistent_lt_le first a b c H1); lia).
      destruct (Z.eqb_spec (first a c) 0%Z); cbn [negb]; lia.
Qed.

Variable cmp : A -> A -> Z.

Lemma insert_by_In (x y : A) (l : list A) :
  In y (insert_by cmp x l) <-> y = x \/ In y l.
Proof.
  induction l as [|z l IH]; cbn [insert_by].
  - cbn. intuition.
  - destruct (cmp x z <=? 0)%Z; cbn [In]; [intuition |].
    rewrite IH. cbn [In]. intuition.
Qed.

(** The sort neither adds nor loses an element. *)
Lemma array_sort_In (y : A) (l : list A) :
  In y (array_sort cmp l) <-> In y l.
Proof.
  induction l as [|x l IH]; cbn [array_sort fold_right]; [reflexivity |].
  fold (array_sort cmp l). rewrite insert_by_In, IH. cbn [In]. intuition.
Qed.

Lemma insert_by_length (x : A) (l : list A) :
  length (insert_by cmp x l) = S (length l).
Proof.
  induction l as [|z l IH]; cbn [insert_by]; [reflexivity |].
  destruct (cmp x z <=? 0)%Z; cbn [length]; [reflexivity | now rewrite IH].
Qed.

Lemma array_sort_length (l : list A) : length (array_sort cmp l) = length l.
Proof.
  induction l as [|x l IH]; cbn [array_sort fold_right]; [reflexivity |].
  fold (array_sort cmp l). now rewrite insert_by_length, IH.
Qed.

Hypothesis cmp_consistent : Consistent cmp.

Lemma insert_by_HdRel (x y : A) (l : list A) :
  in_order cmp y x -> HdRel (in_order cmp) y l -> HdRel (in_order cmp) y (insert_by cmp x l).
Proof.
  intros Hyx Hl. destruct l as [|z l]; cbn [insert_by]; [now constructor |].
  destruct (cmp x z <=? 0)%Z; constructor; [assumption |].
  now apply HdRel_inv in Hl.
Qed.

Lemma insert_by_Sorted (x : A) (l : list A) :
  Sorted (in_order cmp) l -> Sorted (in_order cmp) (insert_by cmp x l).
Proof.
  induction 1 as [|y l Hs IH Hhd]; cbn [insert_by].
  - repeat constructor.
  - destruct (Z.leb_spec (cmp x y) 0%Z) as [Hle | Hgt].
    + constructor; [now constructor | now constructor].
    + constructor; [assumption |].
      apply insert_by_HdRel; [| assumption].
      unfold in_order. apply (consistent_flip cmp y x cmp_consistent) in Hgt. lia.
Qed.

Lemma array_sort_Sorted (l : list A) : Sorted (in_order cmp) (array_sort cmp l).
Proof.
  induction l as [|x l IH]; cbn [array_sort fold_right]; [constructor |].
  now apply insert_by_Sorted.
Qed.

Lemma Sorted_sorted_by (l : list A) : Sorted (in_order cmp) l -> sorted_by cmp l.
Proof.
  induction 1 as [|x l Hs IH Hhd]; intros i a b Ha Hb.
  - destruct i; discriminate.
  - destruct i as [|i]; cbn [nth_error] in Ha, Hb.
    + injection Ha as <-. destruct l as [|y l]; [discriminate |].
      injection Hb as <-. now apply HdRel_inv in Hhd.
    + exact (IH i a b Ha Hb).
Qed.

(** The result of the sort is in the order of its comparator. *)
Lemma array_sort_sorted (l : list A) : sorted_by cmp (array_sort cmp l).
Proof. apply Sorted_sorted_by, array_sort_Sorted. Qed.

(** The sort is stable: the elements that compare equal to a given one keep
    their input order. *)
Lemma insert_by_stable (w x : A) (l : list A) :
  List.filter (fun y => (cmp w y =? 0)%Z) (insert_by cmp x l)
  = List.filter (fun y => (cmp w y =? 0)%Z) (x :: l).
Proof.
  induction l as [|z l IH]; cbn [insert_by]; [reflexivity |].
  destruct (Z.leb_spec (cmp x z) 0%Z) as [Hle | Hgt]; [reflexivity |].
  cbn [List.filter] in *. rewrite IH.
  destruct (Z.eqb_spec (cmp w x) 0%Z) as [Ex | _];
    destruct (Z.eqb_spec (cmp w z) 0%Z) as [Ez | _]; try reflexivity.
  exfalso. apply (consistent_flip cmp w x cmp_consistent) in Ex.
  pose proof (consistent_eq_trans cmp x w z cmp_consistent Ex Ez). lia.
Qed.

Lemma array_sort_stable (w : A) (l : list A) :
  List.filter (fun y => (cmp w y =? 0)%Z) (array_sort cmp l)
  = List.filter (fun y => (cmp w y =? 0)%Z) l.
Proof.
  induction l as [|x l IH]; cbn [array_sort fold_right]; [reflexivity |].
  fold (array_sort cmp l). rewrite insert_by_stable.
  cbn [List.filter]. now rewrite IH.
Qed.

End Comparators.

(** The concrete host is a collation. *)
Lemma byte_compare_consistent : Consistent byte_compare.
Proof.
  split.
  - intros a b. unfold byte_compare.
    pose proof (String_as_OT.cmp_antisym a b) as E.
    unfold String_as_OT.cmp in E. rewrite E.
    now destruct (String.compare b a).
  - intros a b c. unfold byte_compare.
    destruct (String.compare a b) eqn:Eab; [| | lia];
      destruct (String.compare b c) eqn:Ebc; try lia; intros _ _.
    + apply String_as_OT.cmp_eq in Eab, Ebc. subst.
      pose proof (proj2 (String_as_OT.cmp_eq c c) eq_refl) as E.
      unfold String_as_OT.cmp in E. now rewrite E.
    + apply String_as_OT.cmp_eq in Eab. subst. now rewrite Ebc.
    + apply String_as_OT.cmp_eq in Ebc. subst. now rewrite Eab.
    + apply String_as_OT.cmp_lt in Eab, Ebc.
      pose proof (String_as_OT.lt_trans _ _ _ Eab Ebc) as Hac.
      apply String_as_OT.cmp_lt in Hac. unfold String_as_OT.cmp in Hac.
      now rewrite Hac.
Qed.

Lemma byte_host_collation : Collation byte_host.
Proof. intros locales. exact byte_compare_consistent. Qed.

(** *** The filter, search and sort pipeline *)

Lemma truthy_true (s : string) : truthy s = true <-> s <> EmptyString.
Proof.
  unfold truthy. rewrite negb_true_iff. apply String.eqb_neq.
Qed.

Lemma truthy_empty : truthy EmptyString = false.
Proof. reflexivity. Qed.

Lemma cell_is_true (col v : string) (row : RowData) :
  cell_is col v row = true <-> row !! col = Some v.
Proof. unfold cell_is. apply bool_decide_eq_true. Qed.

Lemma consistent_ext {A : Type} (c1 c2 : A -> A -> Z) :
  (forall a b, c1 a b = c2 a b) -> Consistent c1 -> Consistent c2.
Proof.
  intros E [Hanti Htrans]. split.
  - intros a b. rewrite <- !E. apply Hanti.
  - intros a b c. rewrite <- !E. apply Htrans.
Qed.

Section Pipeline.

Context (H : Host).

(** The filter loop keeps a row only if it passes every active filter of the
    columns it visits. *)
Lemma filter_loop_sound (filters : gmap string string) (cols : list string) :
  forall (data : list RowData) (row : RowData),
    In row
      (fold_left
         (fun results col =>
            match filters !! col with
            | Some filterValue =>
                if truthy filterValue
                then List.filter (cell_is col filterValue) results
                else results
            | None => results
            end)
         cols data) ->
    In row data
    /\ (forall col v, In col cols -> filters !! col = Some v -> v <> EmptyString ->
        row !! col = Some v).
Proof.
  induction cols as [|c cols IH]; intros data row Hin; cbn [fold_left] in Hin.
  - split; [assumption | intros col v []].
  - apply IH in Hin as [Hin Hrest].
    assert (In row data /\
            (forall v, filters !! c = Some v -> v <> EmptyString -> row !! c = Some v))
      as [Hdata Hc].
    { destruct (filters !! c) as [fv|] eqn:Ef; [| split; [assumption | discriminate]].
      destruct (truthy fv) eqn:Et.
      - apply filter_In in Hin as [Hin Hcell]. split; [assumption |].
        intros v [= <-] _. now apply cell_is_true.
      - split; [assumption |]. intros v [= <-] Hv.
        apply truthy_true in Hv. congruence. }
    split; [assumption |].
    intros col v [<- | Hcol] Hf Hv; [now apply Hc | now apply Hrest].
Qed.

Lemma applyFilters_sound filters data row col v :
  In row (Main.applyFilters filters data) ->
  active_filter filters col v ->
  In row data /\ row !! col = Some v.
Proof.
  intros Hin (Hcol & Hf & Hv).
  apply filter_loop_sound in Hin as [Hdata Hall]. split; [assumption |].
  now apply (Hall col v).
Qed.

Lemma matchesSearch_hit (term : string) (row : RowData) :
  matchesSearch (toLowerCase term) row = true -> search_hit term row.
Proof.
  unfold matchesSearch. intros Hex.
  apply existsb_exists in Hex as (col & Hcol & Hm).
  destruct (row !! col) as [v|] eqn:Ev; [| discriminate].
  apply andb_true_iff in Hm as [_ Hinc].
  now exists col, v.
Qed.

Lemma applySearch_In term results row :
  In row (Main.applySearch term results) -> In row results.
Proof.
  unfold Main.applySearch. destruct (truthy term); [| trivial].
  intros Hin. now apply filter_In in Hin.
Qed.

Lemma applySearch_hit term results row :
  term <> EmptyString ->
  In row (Main.applySearch term results) -> search_hit term row.
Proof.
  intros Hterm. unfold Main.applySearch.
  rewrite (proj2 (truthy_true term) Hterm).
  intros Hin. apply filter_In in Hin as [_ Hm]. now apply matchesSearch_hit.
Qed.

Lemma filterMatch_sound filters row col v :
  Alt.filterMatch filters row = true ->
  active_filter filters col v ->
  row !! col = Some v.
Proof.
  intros Hm (Hcol & Hf & Hv). unfold Alt.filterMatch in Hm.
  rewrite forallb_forall in Hm. specialize (Hm col Hcol).
  rewrite Hf in Hm. rewrite (proj2 (truthy_true v) Hv) in Hm.
  now apply cell_is_true.
Qed.

Lemma keep_filterMatch term filters row :
  Alt.keep term filters row = true -> Alt.filterMatch filters row = true.
Proof.
  unfold Alt.keep. now destruct (Alt.filterMatch filters row).
Qed.

Lemma keep_hit term filters row :
  term <> EmptyString ->
  Alt.keep term filters row = true -> search_hit term row.
Proof.
  intros Hterm. unfold Alt.keep.
  destruct (Alt.filterMatch filters row); [| discriminate]. cbn [negb].
  rewrite (proj2 (truthy_true term) Hterm). cbn [negb].
  apply matchesSearch_hit.
Qed.

(** The rows of the two Result Sequences come from the dataset. *)
Lemma Main_filteredData_In data term filters sortKey row :
  In row (Main.filteredData data term filters sortKey) ->
  In row (Main.applySearch term (Main.applyFilters filters data)).
Proof. unfold Main.filteredData. apply array_sort_In. Qed.

Lemma Alt_filteredData_In data term filters row :
  In row (Alt.filteredData data term filters) ->
  In row data /\ Alt.keep term filters row = true.
Proof.
  unfold Alt.filteredData. intros Hin.
  apply array_sort_In in Hin. now apply filter_In in Hin.
Qed.

Hypothesis collation : Collation H.

Lemma ko_compare_consistent (col : string) : Consistent (ko_compare col).
Proof.
  unfold ko_compare.
  exact (consistent_on (fun row => cell row col) _ (collation (Some "ko"))).
Qed.

Lemma Main_compareRows_consistent (sortKey : string) :
  Consistent (Main.compareRows sortKey).
Proof.
  destruct (String.eqb sortKey (display_header 1)) eqn:E.
  - apply (consistent_ext
             (tie_break (ko_compare (display_header 1))
                (tie_break (ko_compare (display_header 2))
                   (ko_compare (display_header 3))))).
    + intros a b. unfold Main.compareRows. now rewrite E.
    + repeat apply consistent_tie_break; apply ko_compare_consistent.
  - apply (consistent_ext (ko_compare sortKey)).
    + intros a b. unfold Main.compareRows. now rewrite E.
    + apply ko_compare_consistent.
Qed.

Lemma Alt_compareRows_consistent : Consistent Alt.compareRows.
Proof.
  unfold Alt.compareRows.
  exact (consistent_on (fun row => cell row (display_header 0)) _ (collation None)).
Qed.

End Pipeline.

(** C1. Filter soundness: whatever the dataset, the selections, the search
    term and the sort key, every record of the Result Sequence (of either
    variant) holds, in every column with an active filter, exactly the
    selected value. *)
Theorem filter_soundness (H : Host) (data : list RowData)
    (filters : gmap string string) (searchTerm sortKey col value : string)
    (row : RowData) :
  active_filter filters col value ->
  (In row (Main.filteredData data searchTerm filters sortKey) ->
   row !! col = Some value)
  /\ (In row (Alt.filteredData data searchTerm filters) ->
      row !! col = Some value).
Proof.
  intros Hactive. split; intros Hin.
  - apply Main_filteredData_In, applySearch_In in Hin.
    now apply (applyFilters_sound filters data row col value) in Hin as [_ Hv].
  - apply Alt_filteredData_In in Hin as [_ Hkeep].
    apply keep_filterMatch in Hkeep.
    now apply (filterMatch_sound filters row col value).
Qed.

(** C2. Search soundness: with a search term that is not empty, every record
    of the Result Sequence (of either variant) holds the lower-cased term
    inside its lower-cased value of a searchable column; with the empty
    term the search step returns the records it is given ([Main]), and the
    row predicate is the filter match alone ([Alt]). *)
Theorem search_soundness (H : Host) (data : list RowData)
    (filters : gmap string string) (searchTerm sortKey : string) :
  (searchTerm <> EmptyString ->
   forall row,
     In row (Main.filteredData data searchTerm filters sortKey)
     \/ In row (Alt.filteredData data searchTerm filters) ->
     search_hit searchTerm row)
  /\ (forall results, Main.applySearch EmptyString results = results)
  /\ Main.filteredData data EmptyString filters sortKey
     = array_sort (Main.compareRows sortKey) (Main.applyFilters filters data)
  /\ (forall row, Alt.keep EmptyString filters row = Alt.filterMatch filters row).
Proof.
  split; [| split; [| split]].
  - intros Hterm row [Hin | Hin].
    + apply Main_filteredData_In in Hin. now apply applySearch_hit in Hin.
    + apply Alt_filteredData_In in Hin as [_ Hkeep]. now apply keep_hit in Hkeep.
  - reflexivity.
  - reflexivity.
  - intros row. unfold Alt.keep. rewrite truthy_empty.
    now destruct (Alt.filterMatch filters row).
Qed.

(** Sortedness: on a host whose [localeCompare] is a collation, the
    Result Sequence is in the order of the comparator of the active sort key:
    for every adjacent pair the comparator is at most zero.  The comparator
    compares the values of the sort key column in Korean collation; when
    the sort key is the second display column it is the chain of the
    comparisons on the second, third and fourth display columns, each in
    Korean collation, stopped at the first that is not zero.  The variant
    whose sort key is fixed to the first display column passes no locale: its
    result is in the order of the default collation of the host on that
    column, hence in Korean collation order on a host whose default
    collation is the Korean one. *)
Theorem result_sorted (H : Host) (data : list RowData)
    (filters : gmap string string) (searchTerm sortKey : string) :
  Collation H ->
  sorted_by (Main.compareRows sortKey)
    (Main.filteredData data searchTerm filters sortKey)
  /\ (sortKey = display_header 1 ->
      forall a b,
        Main.compareRows sortKey a b
        = first_nonzero [ ko_compare (display_header 1) a b;
                          ko_compare (display_header 2) a b;
                          ko_compare (display_header 3) a b ])
  /\ (sortKey <> display_header 1 ->
      forall a b, Main.compareRows sortKey a b = ko_compare sortKey a b)
  /\ sorted_by (fun a b => localeCompare None (cell a (display_header 0))
                             (cell b (display_header 0)))
       (Alt.filteredData data searchTerm filters)
  /\ ((forall a b, localeCompare None a b = localeCompare (Some "ko") a b) ->
      sorted_by (ko_compare (display_header 0))
        (Alt.filteredData data searchTerm filters)).
Proof.
  intros HC.
  assert (sorted_by Alt.compareRows (Alt.filteredData data searchTerm filters))
    as Halt
      by (apply (array_sort_sorted Alt.compareRows);
          now apply Alt_compareRows_consistent).
  split; [| split; [| split; [| split]]].
  - apply array_sort_sorted. now apply Main_compareRows_consistent.
  - intros -> a b. unfold Main.compareRows, first_nonzero, ko_compare.
    rewrite String.eqb_refl.
    destruct (localeCompare (Some "ko") _ _ =? 0)%Z; [| reflexivity].
    cbn [negb]. now destruct (localeCompare (Some "ko") _ _ =? 0)%Z.
  - intros Hne a b. unfold Main.compareRows, ko_compare.
    now rewrite (proj2 (String.eqb_neq _ _) Hne).
  - exact Halt.
  - intros Hko i a b Ha Hb. unfold ko_compare. rewrite <- Hko.
    exact (Halt i a b Ha Hb).
Qed.

(** *** The pipeline on a sample dataset *)

Example sample_filtered_by_textbook :
  titles (Main.filteredData (H := byte_host) SAMPLE_DATA EmptyString SAMPLE_FILTERS
            "작품명/지문명")
  = ["Azaleas"; "Night Rain"; "The Wings"].
Proof. vm_compute. reflexivity. Qed.

Example sample_search_ignores_case :
  titles (Main.filteredData (H := byte_host) SAMPLE_DATA "NIGHT" ∅ "작품명/지문명")
  = ["Night Rain"; "Spring Night"]
  /\ titles (Alt.filteredData (H := byte_host) SAMPLE_DATA "NIGHT" ∅)
     = ["Night Rain"; "Spring Night"].
Proof. split; vm_compute; reflexivity. Qed.

Example sample_sorted_by_textbook :
  titles (Main.filteredData (H := byte_host) SAMPLE_DATA EmptyString ∅ "수록교재")
  = ["Night Rain"; "Azaleas"; "The Wings"; "Spring Night"].
Proof. vm_compute. reflexivity. Qed.

(** Membership in a computed list, checked by evaluation. *)
Lemma In_checked (row : RowData) (rows : list RowData) :
  bool_decide (row ∈ rows) = true -> In row rows.
Proof.
  intros Hb. apply list_elem_of_In. now apply bool_decide_eq_true in Hb.
Qed.

Lemma filter_soundness_witness :
  active_filter SAMPLE_FILTERS "수록교재" "Literature A"
  /\ In (sample_row "Night Rain" "Literature A" "Poetry" "Classic")
       (Main.filteredData (H := byte_host) SAMPLE_DATA "night" SAMPLE_FILTERS
          "수록교재")
  /\ sample_row "Night Rain" "Literature A" "Poetry" "Classic" !! "수록교재"
     = Some "Literature A".
Proof.
  assert (active_filter SAMPLE_FILTERS "수록교재" "Literature A") as Hactive.
  { split; [cbn; tauto |]. split; [vm_compute; reflexivity | discriminate]. }
  assert (In (sample_row "Night Rain" "Literature A" "Poetry" "Classic")
            (Main.filteredData (H := byte_host) SAMPLE_DATA "night" SAMPLE_FILTERS
               "수록교재")) as Hin.
  { apply In_checked. vm_compute. reflexivity. }
  split; [exact Hactive |]. split; [exact Hin |].
  exact (proj1 (filter_soundness byte_host SAMPLE_DATA SAMPLE_FILTERS "night"
                  "수록교재" "수록교재" "Literature A" _ Hactive) Hin).
Defined.

Lemma search_soundness_witness :
  search_hit (H := byte_host) "NIGHT"
    (sample_row "Spring Night" "Literature B" "Poetry" "Modern").
Proof.
  apply (proj1 (search_soundness byte_host SAMPLE_DATA ∅ "NIGHT" "작품명/지문명")).
  - discriminate.
  - left. apply In_checked. vm_compute. reflexivity.
Defined.

Lemma result_sorted_witness :
  sorted_by (Main.compareRows (H := byte_host) "수록교재")
    (Main.filteredData (H := byte_host) SAMPLE_DATA EmptyString ∅ "수록교재").
Proof.
  exact (proj1 (result_sorted byte_host SAMPLE_DATA ∅ EmptyString "수록교재"
                  byte_host_collation)).
Defined.

(** *** The sort that passes no locale *)

(** Equality of computed lists of records, checked by evaluation. *)
Lemma rows_checked (rows rows' : list RowData) :
  bool_decide (rows = rows') = true -> rows = rows'.
Proof. apply bool_decide_eq_true_1. Qed.

Lemma hangul_first_consistent : Consistent hangul_first_compare.
Proof.
  destruct byte_compare_consistent as [Hanti Htrans]. split.
  - intros a b. unfold hangul_first_compare.
    destruct (starts_beyond_ascii a), (starts_beyond_ascii b);
      try reflexivity; apply Hanti.
  - intros a b c. unfold hangul_first_compare.
    destruct (starts_beyond_ascii a), (starts_beyond_ascii b),
      (starts_beyond_ascii c); try lia; apply Htrans.
Qed.

Lemma english_default_collation : Collation english_default_host.
Proof.
  intros [locale |]; [exact hangul_first_consistent | exact byte_compare_consistent].
Qed.

(** C3, on the variant whose sort key is fixed to the first display column:
    its comparison passes no locale, so the result is in the order of the
    default collation of the engine.  On a host whose default collation is
    not the Korean one the result is not in Korean order: of a Latin and a
    Hangul title the Latin one comes first, where the Korean comparator puts
    the Hangul one first.  The variant that passes the locale returns the
    two records in Korean order. *)
Theorem alt_sort_ignores_locale :
  Collation english_default_host
  /\ titles (Alt.filteredData (H := english_default_host) LATIN_AND_HANGUL
               EmptyString ∅)
     = ["Azaleas"; "진달래꽃"]
  /\ ~ sorted_by (ko_compare (H := english_default_host) (display_header 0))
        (Alt.filteredData (H := english_default_host) LATIN_AND_HANGUL EmptyString ∅)
  /\ titles (Main.filteredData (H := english_default_host) LATIN_AND_HANGUL
               EmptyString ∅ (display_header 0))
     = ["진달래꽃"; "Azaleas"]
  /\ sorted_by (ko_compare (H := english_default_host) (display_header 0))
       (Main.filteredData (H := english_default_host) LATIN_AND_HANGUL EmptyString ∅
          (display_header 0)).
Proof.
  assert (Ealt : Alt.filteredData (H := english_default_host) LATIN_AND_HANGUL
                   EmptyString ∅
                 = [ sample_row "Azaleas" "Literature A" "Poetry" "Modern";
                     sample_row "진달래꽃" "Literature A" "Poetry" "Modern" ])
    by (apply rows_checked; vm_compute; reflexivity).
  split; [exact english_default_collation |].
  split; [vm_compute; reflexivity |]. split; [| split].
  - intros Hsorted. rewrite Ealt in Hsorted.
    specialize (Hsorted 0%nat _ _ eq_refl eq_refl).
    vm_compute in Hsorted. now apply Hsorted.
  - vm_compute. reflexivity.
  - destruct (result_sorted english_default_host LATIN_AND_HANGUL ∅ EmptyString
                (display_header 0) english_default_collation)
      as (Hsorted & _ & Hko & _).
    assert (Hne : display_header 0 <> display_header 1) by (vm_compute; discriminate).
    intros i a b Ha Hb. rewrite <- (Hko Hne). exact (Hsorted i a b Ha Hb).
Qed.

(** *** The fetcher *)

(** The ways through [fetchData]: how the fetch ends, whether the response is
    a success, whether the body is short, and whether it is the first load. *)
Ltac fetch_cases s outcome :=
  unfold fetchData_with, fetchEnd, fetchStart;
  let m := fresh "message" in
  let status := fresh "status" in
  let csvText := fresh "csvText" in
  destruct outcome as [m | status csvText];
  [ destruct s as [? ? ? ? [|]]
  | destruct (response_ok status);
    [ cbv zeta; destruct (length (split_lines (trim csvText)) <? 2)%nat | ];
    destruct s as [? ? ? ? [|]] ].

(** The dataset and the error a run of [fetchData] leaves behind. *)
Lemma fetchData_with_data rows_of outcome now s :
  data (fetchData_with rows_of outcome now s)
  = match outcome with
    | Rejected _ => data s
    | Responded status csvText =>
        if response_ok status then
          let lines := split_lines (trim csvText) in
          if (length lines <? 2)%nat then [] else rows_of lines
        else data s
    end.
Proof.
  fetch_cases s outcome; reflexivity.
Qed.

Lemma fetchData_with_error rows_of outcome now s :
  error (fetchData_with rows_of outcome now s)
  = match outcome with
    | Rejected message => Some (if truthy message then message else MSG_UNEXPECTED)
    | Responded status csvText =>
        if response_ok status then
          if (length (split_lines (trim csvText)) <? 2)%nat && isInitialMount s
          then Some MSG_SHEET_EMPTY
          else None
        else Some (MSG_FETCH_FAILED status)
    end.
Proof.
  fetch_cases s outcome; reflexivity.
Qed.

(** The first load is over after one run, however it ends. *)
Lemma fetchData_with_mounted rows_of outcome now s :
  isInitialMount (fetchData_with rows_of outcome now s) = false
  /\ (isInitialMount s = true -> isLoading (fetchData_with rows_of outcome now s) = false).
Proof.
  fetch_cases s outcome; split; reflexivity || discriminate.
Qed.

(** The same for the second step of a run alone, whatever state it finds:
    a run that does not fail writes no error of its own, but for the message
    of the short body on the first load. *)
Ltac end_cases s outcome :=
  unfold fetchEnd;
  let m := fresh "message" in
  let status := fresh "status" in
  let csvText := fresh "csvText" in
  destruct outcome as [m | status csvText];
  [ destruct s as [? ? ? ? [|]]
  | destruct (response_ok status);
    [ cbv zeta; destruct (length (split_lines (trim csvText)) <? 2)%nat | ];
    destruct s as [? ? ? ? [|]] ].

Lemma fetchEnd_data rows_of outcome now s :
  data (fetchEnd rows_of outcome now s)
  = match outcome with
    | Rejected _ => data s
    | Responded status csvText =>
        if response_ok status then
          let lines := split_lines (trim csvText) in
          if (length lines <? 2)%nat then [] else rows_of lines
        else data s
    end.
Proof.
  end_cases s outcome; reflexivity.
Qed.

Lemma fetchEnd_error rows_of outcome now s :
  error (fetchEnd rows_of outcome now s)
  = match outcome with
    | Rejected message => Some (if truthy message then message else MSG_UNEXPECTED)
    | Responded status csvText =>
        if response_ok status then
          if (length (split_lines (trim csvText)) <? 2)%nat && isInitialMount s
          then Some MSG_SHEET_EMPTY
          else error s
        else Some (MSG_FETCH_FAILED status)
    end.
Proof.
  end_cases s outcome; reflexivity.
Qed.




(** *** Blank rows *)

(** A record has content when one of its values is not empty after
    trimming. *)
Lemma has_content_spec (row : RowData) :
  has_content row = true
  <-> exists col v, row !! col = Some v /\ trim v <> EmptyString.
Proof.
  unfold has_content. rewrite existsb_exists. split.
  - intros ([col v] & Hin & Hv). cbn [snd] in Hv.
    apply andb_true_iff in Hv as [_ Hv]. apply negb_true_iff, String.eqb_neq in Hv.
    exists col, v. split; [| assumption].
    now apply elem_of_map_to_list, list_elem_of_In.
  - intros (col & v & Hl & Hv). exists (col, v). split.
    + now apply list_elem_of_In, elem_of_map_to_list.
    + cbn [snd]. apply andb_true_iff. split.
      * apply truthy_true. intros ->. now apply Hv.
      * now apply negb_true_iff, String.eqb_neq.
Qed.

(** The variant with the blank-row filter never publishes a blank record,
    whatever the body. *)
Lemma main_rows_have_content (lines : list string) (row : RowData) :
  In row (Main.rows_of lines) -> has_content row = true.
Proof. unfold Main.rows_of. intros Hin. now apply filter_In in Hin. Qed.

Lemma main_dataset_has_content (outcome : FetchOutcome) (now : Z) (s : Feed) :
  (forall row, In row (data s) -> has_content row = true) ->
  forall row, In row (data (Main.fetchData outcome now s)) -> has_content row = true.
Proof.
  intros Hs row. unfold Main.fetchData. rewrite fetchData_with_data.
  destruct outcome as [m | status csvText]; [apply Hs |].
  destruct (response_ok status); [| apply Hs]. cbv zeta.
  destruct (length (split_lines (trim csvText)) <? 2)%nat; [intros [] |].
  apply main_rows_have_content.
Qed.

(** C7, on the variant with the regular-expression split: from a body whose
    first data row is blank, a record with nothing but empty values is
    published, first of two; the variant with the character scanner
    publishes the one record with content. *)
Theorem blank_row_published :
  data (Alt.fetchData (Responded 200 BODY_BLANK_ROW) 1 initial_feed)
  = [ BLANK_RECORD; <["title" := "Azaleas"]> (<["book" := "Literature A"]> ∅) ]
  /\ has_content BLANK_RECORD = false
  /\ data (Main.fetchData (Responded 200 BODY_BLANK_ROW) 1 initial_feed)
     = [ <["title" := "Azaleas"]> (<["book" := "Literature A"]> ∅) ].
Proof. repeat split; apply bool_decide_eq_true_1; vm_compute; reflexivity. Qed.

(** *** Column names *)







(** *** Pages *)


(** The page count is the least number of pages of 20 that hold [n]
    records. *)
Lemma page_count_spec (n : nat) :
  (page_count n * 20 < Z.of_nat n + 20)%Z /\ (Z.of_nat n <= page_count n * 20)%Z.
Proof.
  unfold page_count, ITEMS_PER_PAGE.
  pose proof (Z.div_mod (Z.of_nat n + 20 - 1) 20 ltac:(lia)) as Hd.
  pose proof (Z.mod_pos_bound (Z.of_nat n + 20 - 1) 20 ltac:(lia)) as Hm.
  lia.
Qed.

Example pages_of_45_records :
  page_count 45 = 3%Z
  /\ page_count 0 = 0%Z
  /\ page_window (seq 0 45) 3 = [40; 41; 42; 43; 44]
  /\ page_window (@nil nat) 1 = [].
Proof. repeat split. Qed.



(** The effect touches nothing but the page. *)
Lemma main_effect_keeps (prev next : Main.App) :
  Main.searchTerm (Main.resetPageEffect prev next) = Main.searchTerm next
  /\ Main.filters (Main.resetPageEffect prev next) = Main.filters next
  /\ Main.sortKey (Main.resetPageEffect prev next) = Main.sortKey next
  /\ Main.feed (Main.resetPageEffect prev next) = Main.feed next.
Proof.
  unfold Main.resetPageEffect. now destruct (Main.dependencies_changed prev next).
Qed.


(** Over every reachable state of the variant with the blank-row filter, no
    record of the dataset is blank. *)
Lemma main_reachable_has_content (s : Main.App) :
  Main.reachable s ->
  forall row, In row (data (Main.feed s)) -> has_content row = true.
Proof.
  induction 1 as [| s ev _ IH]; [intros row [] |].
  unfold Main.dispatch.
  destruct (main_effect_keeps s (Main.handle ev s)) as (_ & _ & _ & ->).
  destruct ev; cbn [Main.handle Main.setFilters Main.setCurrentPage Main.feed];
    try exact IH.
  now apply main_dataset_has_content.
Qed.



(** ** Part III: the rest of the component *)

(** *** The page strip *)

Lemma range_from_In (n first : Z) (count : nat) :
  In (PageNumber n) (range_from first count)
  <-> (first <= n < first + Z.of_nat count)%Z.
Proof.
  revert first. induction count as [|k IH]; intros first; cbn [range_from In].
  - lia.
  - rewrite IH. split.
    + intros [E | Hin]; [injection E as <- |]; lia.
    + intros Hn. destruct (Z.eq_dec first n) as [-> | Hne]; [now left | right; lia].
Qed.

Lemma page_range_In (n first last : Z) :
  In (PageNumber n) (page_range first last) <-> (first <= n <= last)%Z.
Proof. unfold page_range. rewrite range_from_In. lia. Qed.

Lemma linked_range_from (count : nat) :
  forall (first : Z) (tail : list PageItem),
    linked (first + Z.of_nat count - 1) tail ->
    linked (first - 1) (range_from first count ++ tail).
Proof.
  induction count as [|k IH]; intros first tail Htail; cbn [range_from app].
  - now replace (first + Z.of_nat 0 - 1)%Z with (first - 1)%Z in Htail by lia.
  - cbn [linked]. split; [lia |].
    replace first with (first + 1 - 1)%Z at 1 by lia.
    apply IH. now replace (first + 1 + Z.of_nat k - 1)%Z
      with (first + Z.of_nat (S k) - 1)%Z by lia.
Qed.

Lemma linked_page_range (prev first last : Z) (tail : list PageItem) :
  (first <= last + 1)%Z ->
  prev = (first - 1)%Z ->
  linked last tail ->
  linked prev (page_range first last ++ tail).
Proof.
  intros Hle -> Htail. unfold page_range. apply linked_range_from.
  now replace (first + Z.of_nat (Z.to_nat (last - first + 1)) - 1)%Z with last by lia.
Qed.

Lemma linked_ellipsis_range (prev first last : Z) (tail : list PageItem) :
  (first <= last)%Z ->
  (prev + 1 < first)%Z ->
  linked last tail ->
  linked prev (Ellipsis :: page_range first last ++ tail).
Proof.
  intros Hle Hgap Htail. unfold page_range.
  destruct (Z.to_nat (last - first + 1)) as [|k] eqn:Ek; [lia |].
  cbn [range_from app linked]. split; [assumption |].
  replace first with (first + 1 - 1)%Z at 1 by lia.
  apply linked_range_from.
  now replace (first + 1 + Z.of_nat k - 1)%Z with last by lia.
Qed.

(** Induction on lists by length: the reading of a strip advances by one
    entry or by two. *)
Lemma list_length_ind {A : Type} (P : list A -> Prop) :
  (forall l, (forall l', (length l' < length l)%nat -> P l') -> P l) ->
  forall l, P l.
Proof.
  intros step l.
  remember (length l) as n eqn:Hn.
  revert l Hn.
  induction n as [n IH] using lt_wf_ind.
  intros l ->. apply step. intros l' Hl'. exact (IH _ Hl' l' eq_refl).
Qed.

(** The numbers of a linked strip grow. *)
Lemma linked_bound (items : list PageItem) :
  forall prev n, linked prev items -> In n (numbers items) -> (prev < n)%Z.
Proof.
  induction items as [items IH] using list_length_ind.
  intros prev n Hl Hin. destruct items as [|[p|] rest].
  - destruct Hin.
  - cbn in Hl, Hin. destruct Hl as [Hp Hl]. destruct Hin as [<- | Hin]; [lia |].
    assert (p < n)%Z by (apply (IH rest); [cbn; lia | assumption | assumption]).
    lia.
  - destruct rest as [|[p|] rest]; cbn in Hl; try contradiction.
    destruct Hl as [Hgap Hl]. cbn in Hin. destruct Hin as [<- | Hin]; [lia |].
    assert (p < n)%Z by (apply (IH rest); [cbn; lia | assumption | assumption]).
    lia.
Qed.

Lemma linked_increasing (items : list PageItem) :
  forall prev, linked prev items -> StronglySorted Z.lt (numbers items).
Proof.
  induction items as [items IH] using list_length_ind.
  intros prev Hl. destruct items as [|[p|] rest].
  - constructor.
  - cbn in Hl. destruct Hl as [Hp Hl]. cbn. constructor.
    + apply (IH rest) with p; [cbn; lia | assumption].
    + apply List.Forall_forall. intros n Hn. now apply (linked_bound rest).
  - destruct rest as [|[p|] rest]; cbn in Hl; try contradiction.
    destruct Hl as [Hgap Hl]. cbn. constructor.
    + apply (IH rest) with p; [cbn; lia | assumption].
    + apply List.Forall_forall. intros n Hn. now apply (linked_bound rest).
Qed.

(** The tests of [getPageNumbers], as facts for [lia]. *)
Ltac strip_cases :=
  unfold getPageNumbers; cbv zeta; change (5 / 2)%Z with 2%Z;
  repeat match goal with
    | |- context [(?a <=? ?b)%Z] => destruct (Z.leb_spec a b)
    | |- context [(?a <? ?b)%Z] => destruct (Z.ltb_spec a b)
    | |- context [Z.max ?a ?b] =>
        let H := fresh "Hmax" in
        destruct (Z.max_spec a b) as [[? H] | [? H]]; rewrite H in *
    | |- context [Z.min ?a ?b] =>
        let H := fresh "Hmin" in
        destruct (Z.min_spec a b) as [[? H] | [? H]]; rewrite H in *
    end.

Lemma getPageNumbers_within (currentPage totalPages n : Z) :
  In (PageNumber n) (getPageNumbers currentPage totalPages) ->
  (1 <= n <= totalPages)%Z.
Proof.
  strip_cases; intros Hin;
    repeat match goal with
      | H : In _ (_ ++ _) |- _ => apply in_app_or in H
      | H : In _ (page_range _ _) |- _ => apply page_range_In in H
      | H : In _ (_ :: _) |- _ => destruct H
      | H : In _ [] |- _ => destruct H
      | H : _ \/ _ |- _ => destruct H
      | H : PageNumber _ = PageNumber _ |- _ => injection H as H
      | H : Ellipsis = PageNumber _ |- _ => discriminate H
      end; lia.
Qed.

(** Finds a page in a strip built from entries and ranges. *)
Ltac find_page :=
  match goal with
  | |- In _ (page_range _ _) => apply page_range_In; lia
  | |- In _ (_ ++ _) => apply in_or_app; ((left; find_page) || (right; find_page))
  | |- In _ (_ :: _) => (left; f_equal; lia) || (right; find_page)
  end.

Lemma getPageNumbers_shows (currentPage totalPages n : Z) :
  (1 <= currentPage <= totalPages)%Z ->
  n = 1%Z \/ n = currentPage \/ n = totalPages ->
  In (PageNumber n) (getPageNumbers currentPage totalPages).
Proof.
  intros Hc Hn.
  strip_cases; try lia; destruct Hn as [-> | [-> | ->]]; find_page.
Qed.

Lemma linked_cons (prev n : Z) (rest : list PageItem) :
  n = (prev + 1)%Z -> linked n rest -> linked prev (PageNumber n :: rest).
Proof. intros Hn Hrest. now split. Qed.

Lemma getPageNumbers_linked (currentPage totalPages : Z) :
  (1 <= currentPage <= totalPages)%Z ->
  linked 0 (getPageNumbers currentPage totalPages).
Proof.
  intros Hc.
  strip_cases; try lia;
    repeat match goal with
      | |- linked _ (page_range ?a ?b) =>
          rewrite <- (app_nil_r (page_range a b))
      | |- linked _ ([] ++ _) => cbn [app]
      | |- linked _ ((_ :: _) ++ _) => cbn [app]
      | |- linked _ (PageNumber _ :: _) => apply linked_cons; [lia |]
      | |- linked _ (Ellipsis :: page_range _ _ ++ _) =>
          apply linked_ellipsis_range; [lia | lia |]
      | |- linked _ (page_range _ _ ++ _) =>
          apply linked_page_range; [lia | lia |]
      | |- linked _ [Ellipsis; PageNumber _] => cbn [linked]; split; [lia | exact I]
      | |- linked _ [PageNumber _] => cbn [linked]; split; [lia | exact I]
      | |- linked _ [] => exact I
      | |- True => exact I
      end.
Qed.

(** *** Pages of the result *)

(** Page [k + 1] holds the records from index [20 k] on, at most 20. *)
Lemma page_window_chunk {A : Type} (l : list A) (k : nat) :
  page_window l (Z.of_nat (S k)) = firstn 20 (skipn (20 * k) l).
Proof.
  unfold page_window, slice, relative_index, ITEMS_PER_PAGE.
  replace ((Z.of_nat (S k) - 1) * 20)%Z with (Z.of_nat (20 * k)) by lia.
  destruct (Z.ltb_spec (Z.of_nat (20 * k)) 0) as [Hneg | _]; [lia |].
  destruct (Z.ltb_spec (Z.of_nat (20 * k) + 20) 0) as [Hneg | _]; [lia |].
  destruct (Nat.le_gt_cases (length l) (20 * k)) as [Hshort | Hlong].
  - rewrite !Z.min_r by lia. rewrite Z.sub_diag, Nat2Z.id.
    rewrite !skipn_all2 by lia. now rewrite !firstn_nil.
  - rewrite (Z.min_l (Z.of_nat (20 * k))) by lia. rewrite Nat2Z.id.
    destruct (Nat.le_gt_cases (length l) (20 * k + 20)) as [Hlast | Hmore].
    + rewrite Z.min_r by lia.
      rewrite !firstn_all2; [reflexivity | |]; rewrite length_skipn; lia.
    + rewrite Z.min_l by lia. f_equal. lia.
Qed.

Lemma chunks_from {A : Type} (l : list A) (count : nat) :
  forall start,
    (length l <= 20 * (start + count))%nat ->
    flat_map (fun k => firstn 20 (skipn (20 * k) l)) (seq start count)
    = skipn (20 * start) l.
Proof.
  induction count as [|n IH]; intros start Hlen; cbn [seq flat_map].
  - symmetry. apply skipn_all2. lia.
  - rewrite IH by lia.
    replace (20 * S start)%nat with (20 + 20 * start)%nat by lia.
    rewrite <- skipn_skipn. apply firstn_skipn.
Qed.

Lemma page_count_nat (n : nat) :
  (n <= 20 * Z.to_nat (page_count n))%nat
  /\ (20 * Z.to_nat (page_count n) < n + 20)%nat.
Proof.
  destruct (page_count_spec n) as [Hup Hlow].
  assert (0 <= page_count n)%Z
    by (unfold page_count, ITEMS_PER_PAGE; apply Z.div_pos; lia).
  lia.
Qed.

(** X1. For a current page between 1 and the last page, the page strip shows
    only pages between 1 and the last one, and among them the first page,
    the current page and the last page. *)
Theorem page_strip_shows (currentPage totalPages : Z) :
  (1 <= currentPage <= totalPages)%Z ->
  (forall n,
      In (PageNumber n) (getPageNumbers currentPage totalPages) ->
      (1 <= n <= totalPages)%Z)
  /\ In (PageNumber 1) (getPageNumbers currentPage totalPages)
  /\ In (PageNumber currentPage) (getPageNumbers currentPage totalPages)
  /\ In (PageNumber totalPages) (getPageNumbers currentPage totalPages).
Proof.
  intros Hc. split; [intros n; apply getPageNumbers_within |].
  repeat split; apply getPageNumbers_shows; auto.
Qed.

Lemma page_strip_shows_witness :
  In (PageNumber 7) (getPageNumbers 7 10).
Proof.
  apply (proj1 (proj2 (proj2 (page_strip_shows 7 10 ltac:(lia))))).
Defined.

(** X2. For a current page between 1 and the last page, the strip starts at
    page 1 and goes on page by page; three dots stand only between two
    numbers and only where at least one page is left out; so the numbers
    grow strictly. *)
Theorem page_strip_linked (currentPage totalPages : Z) :
  (1 <= currentPage <= totalPages)%Z ->
  linked 0 (getPageNumbers currentPage totalPages)
  /\ StronglySorted Z.lt (numbers (getPageNumbers currentPage totalPages)).
Proof.
  intros Hc.
  pose proof (getPageNumbers_linked currentPage totalPages Hc) as Hl.
  split; [exact Hl | exact (linked_increasing _ 0%Z Hl)].
Qed.

Lemma page_strip_linked_witness :
  linked 0 (getPageNumbers 5 10)
  /\ getPageNumbers 5 10
     = [ PageNumber 1; Ellipsis; PageNumber 3; PageNumber 4; PageNumber 5;
         PageNumber 6; PageNumber 7; Ellipsis; PageNumber 10 ].
Proof.
  split; [| reflexivity].
  apply (proj1 (page_strip_linked 5 10 ltac:(lia))).
Defined.

Lemma page_select_keeps (s : Main.App) (page : Z) :
  Main.dispatch (Main.PageSelect page) s = Main.setCurrentPage page s.
Proof.
  unfold Main.dispatch, Main.resetPageEffect, Main.dependencies_changed.
  cbn [Main.handle Main.setCurrentPage Main.searchTerm Main.filtersRef Main.sortKey].
  now rewrite !String.eqb_refl, Nat.eqb_refl.
Qed.

(** X3. Navigation stays in range: when the current page lies between 1 and
    the page count, whatever button of the pagination controls is clicked
    (previous, next or a number of the strip; a disabled button gives no
    click), the page it selects lies between 1 and the page count too, and
    selecting it changes the page and nothing else. *)
Theorem page_controls_in_range (H : Host) (s : Main.App) (control : Control)
    (page : Z) :
  (1 <= Main.currentPage s <= Main.totalPages s)%Z ->
  click (Main.currentPage s) (Main.totalPages s) control = Some page ->
  Main.currentPage (Main.dispatch (Main.PageSelect page) s) = page
  /\ Main.results (Main.dispatch (Main.PageSelect page) s) = Main.results s
  /\ (1 <= page <= Main.totalPages (Main.dispatch (Main.PageSelect page) s))%Z.
Proof.
  intros Hc Hclick. rewrite page_select_keeps.
  split; [reflexivity |]. split; [reflexivity |].
  change (Main.totalPages (Main.setCurrentPage page s)) with (Main.totalPages s).
  destruct control as [| | n]; cbn [click] in Hclick.
  - destruct (Z.eqb_spec (Main.currentPage s) 1); [discriminate |].
    injection Hclick as <-. lia.
  - destruct (Z.eqb_spec (Main.currentPage s) (Main.totalPages s)); [discriminate |].
    injection Hclick as <-. lia.
  - destruct (existsb _ _) eqn:Ex; [| discriminate]. injection Hclick as <-.
    apply existsb_exists in Ex as ([m |] & Hin & Hm); [| discriminate].
    apply Z.eqb_eq in Hm. subst m. now apply getPageNumbers_within in Hin.
Qed.

Lemma page_count_nonneg (n : nat) : (0 <= page_count n)%Z.
Proof. unfold page_count, ITEMS_PER_PAGE. apply Z.div_pos; lia. Qed.

Lemma pages_concat {A : Type} (l : list A) :
  flat_map (fun k => page_window l (Z.of_nat (S k)))
    (seq 0 (Z.to_nat (page_count (length l)))) = l.
Proof.
  destruct (page_count_nat (length l)) as [Hcover _].
  rewrite (flat_map_ext _ (fun k => firstn 20 (skipn (20 * k) l)))
    by (intros k; apply page_window_chunk).
  rewrite chunks_from by lia. reflexivity.
Qed.

Lemma page_window_inside {A : Type} (l : list A) (p : Z) :
  (1 <= p <= page_count (length l))%Z ->
  page_window l p <> [] /\ (length (page_window l p) <= 20)%nat.
Proof.
  destruct (page_count_nat (length l)) as [_ Htight].
  intros Hp. replace p with (Z.of_nat (S (Z.to_nat (p - 1)))) by lia.
  rewrite page_window_chunk. split.
  - intros E. apply (f_equal (@length A)) in E.
    rewrite length_firstn, length_skipn in E. cbn [length] in E. lia.
  - rewrite length_firstn. lia.
Qed.

Lemma page_window_beyond {A : Type} (l : list A) (p : Z) :
  (page_count (length l) < p)%Z -> page_window l p = [].
Proof.
  destruct (page_count_nat (length l)) as [Hcover _].
  pose proof (page_count_nonneg (length l)) as Hpos.
  intros Hp. replace p with (Z.of_nat (S (Z.to_nat (p - 1)))) by lia.
  rewrite page_window_chunk. rewrite skipn_all2 by lia. apply firstn_nil.
Qed.

(** X4. The pages partition the result: the pages 1 to the page count, one
    after the other, give the list back; each of them holds at least one
    record and at most 20; a page after the last holds none. *)
Theorem pages_partition {A : Type} (l : list A) :
  flat_map (fun k => page_window l (Z.of_nat (S k)))
    (seq 0 (Z.to_nat (page_count (length l)))) = l
  /\ (forall p,
      (1 <= p <= page_count (length l))%Z ->
      page_window l p <> [] /\ (length (page_window l p) <= 20)%nat)
  /\ (forall p, (page_count (length l) < p)%Z -> page_window l p = []).
Proof.
  split; [apply pages_concat |].
  split; [apply page_window_inside | apply page_window_beyond].
Qed.

Lemma fetch_done_keeps (s : Main.App) (outcome : FetchOutcome) (now : Z) :
  Main.dispatch (Main.FetchDone outcome now) s
  = {| Main.feed := Main.fetchData outcome now (Main.feed s);
       Main.searchTerm := Main.searchTerm s;
       Main.filters := Main.filters s;
       Main.filtersRef := Main.filtersRef s;
       Main.sortKey := Main.sortKey s;
       Main.currentPage := Main.currentPage s |}.
Proof.
  unfold Main.dispatch, Main.resetPageEffect, Main.dependencies_changed.
  cbn [Main.handle Main.searchTerm Main.filtersRef Main.sortKey].
  now rewrite !String.eqb_refl, Nat.eqb_refl.
Qed.

(** X5. A fetch does not touch the view state: the search term, the
    selections, the sort key and the current page stay as they are, whatever
    the fetch brings.  So when the refreshed result has fewer pages than
    the current page, the page shown holds no record. *)
Theorem fetch_keeps_page (H : Host) (s : Main.App) (outcome : FetchOutcome)
    (now : Z) :
  Main.currentPage (Main.dispatch (Main.FetchDone outcome now) s) = Main.currentPage s
  /\ Main.searchTerm (Main.dispatch (Main.FetchDone outcome now) s) = Main.searchTerm s
  /\ Main.filters (Main.dispatch (Main.FetchDone outcome now) s) = Main.filters s
  /\ Main.sortKey (Main.dispatch (Main.FetchDone outcome now) s) = Main.sortKey s
  /\ ((Main.totalPages (Main.dispatch (Main.FetchDone outcome now) s)
       < Main.currentPage s)%Z ->
      Main.paginatedData (Main.dispatch (Main.FetchDone outcome now) s) = []).
Proof.
  rewrite fetch_done_keeps. repeat split.
  intros Hstale. unfold Main.paginatedData. cbn [Main.currentPage].
  now apply page_window_beyond.
Qed.

Lemma page_controls_in_range_witness :
  (1 <= 3 <= Main.totalPages (H := byte_host)
               (Main.dispatch (Main.PageSelect 3) (sample_app 2)))%Z.
Proof.
  assert (Main.totalPages (H := byte_host) (sample_app 2) = 3%Z) as Htotal
      by (vm_compute; reflexivity).
  refine (proj2 (proj2 (page_controls_in_range byte_host (sample_app 2) NextButton 3
                          _ _))).
  - rewrite Htotal. cbn [Main.currentPage sample_app]. lia.
  - rewrite Htotal. reflexivity.
Defined.

Lemma fetch_keeps_page_witness :
  Main.paginatedData (H := byte_host)
    (Main.dispatch (Main.FetchDone (Responded 200 BODY_TWO_ROWS) 9) (sample_app 3))
  = [].
Proof.
  refine (proj2 (proj2 (proj2 (proj2
            (fetch_keeps_page byte_host (sample_app 3) (Responded 200 BODY_TWO_ROWS) 9))))
            _).
  assert (Main.totalPages (H := byte_host)
            (Main.dispatch (Main.FetchDone (Responded 200 BODY_TWO_ROWS) 9)
               (sample_app 3)) = 1%Z) as -> by (vm_compute; reflexivity).
  cbn [Main.currentPage sample_app]. lia.
Defined.

(** *** The fetcher, when the fetch fails *)

Lemma fetchData_with_lastUpdated rows_of outcome now s :
  lastUpdated (fetchData_with rows_of outcome now s)
  = if failed outcome then lastUpdated s else Some now.
Proof.
  unfold failed. fetch_cases s outcome; reflexivity.
Qed.

Lemma failure_message (outcome : FetchOutcome) rows_of now s :
  failed outcome = true ->
  exists message,
    error (fetchData_with rows_of outcome now s) = Some message
    /\ message <> EmptyString.
Proof.
  intros Hf. rewrite fetchData_with_error.
  destruct outcome as [m | status csvText]; cbn [failed] in Hf.
  - destruct (truthy m) eqn:Et; eexists; (split; [reflexivity |]).
    + now apply truthy_true.
    + discriminate.
  - apply negb_true_iff in Hf. rewrite Hf. eexists. split; [reflexivity |].
    discriminate.
Qed.

Lemma failure_keeps_data (outcome : FetchOutcome) rows_of now s :
  failed outcome = true ->
  data (fetchData_with rows_of outcome now s) = data s.
Proof.
  intros Hf. rewrite fetchData_with_data.
  destruct outcome as [m | status csvText]; cbn [failed] in Hf; [reflexivity |].
  apply negb_true_iff in Hf. now rewrite Hf.
Qed.

(** X6. A fetch that fails (the request rejects, or the status is outside
    200 to 299) keeps the dataset published before and the time of the last
    update, and publishes a message that is not empty.  Both variants. *)
Theorem failed_fetch_keeps_data (outcome : FetchOutcome) (now : Z) (s : Feed) :
  failed outcome = true ->
  (data (Main.fetchData outcome now s) = data s
   /\ lastUpdated (Main.fetchData outcome now s) = lastUpdated s
   /\ exists message,
       error (Main.fetchData outcome now s) = Some message
       /\ message <> EmptyString)
  /\ (data (Alt.fetchData outcome now s) = data s
      /\ lastUpdated (Alt.fetchData outcome now s) = lastUpdated s
      /\ exists message,
          error (Alt.fetchData outcome now s) = Some message
          /\ message <> EmptyString).
Proof.
  intros Hf. unfold Main.fetchData, Alt.fetchData.
  rewrite !fetchData_with_lastUpdated, Hf.
  repeat split; try (now apply failure_keeps_data); now apply failure_message.
Qed.

Lemma failed_fetch_keeps_data_witness :
  data (Main.fetchData (Responded 503 EmptyString) 7
          (Main.fetchData (Responded 200 BODY_TWO_ROWS) 1 initial_feed))
  = data (Main.fetchData (Responded 200 BODY_TWO_ROWS) 1 initial_feed).
Proof.
  apply (proj1 (proj1 (failed_fetch_keeps_data (Responded 503 EmptyString) 7
                         (Main.fetchData (Responded 200 BODY_TWO_ROWS) 1 initial_feed)
                         eq_refl))).
Defined.

Lemma fetchData_with_refresh rows_of outcome now s :
  isInitialMount s = false ->
  isLoading (fetchData_with rows_of outcome now s) = isLoading s.
Proof.
  fetch_cases s outcome; intros Hm; (discriminate Hm || reflexivity).
Qed.

Lemma feed_reachable_loading rows_of (s : Feed) :
  feed_reachable rows_of s ->
  isLoading s = isInitialMount s
  /\ (isInitialMount s = true -> s = initial_feed).
Proof.
  induction 1 as [| s outcome now _ [IHl IHi]].
  - now split.
  - destruct (fetchData_with_mounted rows_of outcome now s) as [Hm Hl].
    rewrite Hm. split; [| discriminate].
    destruct (isInitialMount s) eqn:Ei; [now apply Hl |].
    now rewrite fetchData_with_refresh.
Qed.

(** X7. The loading flag is up exactly until the first fetch has ended: in
    every state the fetcher can reach, [isLoading] equals [isInitialMount],
    both are false once a fetch has run, however it ended, and the only
    state in which they are true is the mounted one.  A background refresh
    never raises the flag. *)
Theorem loading_until_first_fetch (rows_of : list string -> list RowData)
    (s : Feed) (outcome : FetchOutcome) (now : Z) :
  feed_reachable rows_of s ->
  isLoading s = isInitialMount s
  /\ (isInitialMount s = true -> s = initial_feed)
  /\ isLoading (fetchData_with rows_of outcome now s) = false
  /\ isInitialMount (fetchData_with rows_of outcome now s) = false.
Proof.
  intros Hr.
  destruct (feed_reachable_loading rows_of s Hr) as [Hl Hi].
  destruct (feed_reachable_loading rows_of _ (feed_fetched rows_of s outcome now Hr))
    as [Hl' _].
  destruct (fetchData_with_mounted rows_of outcome now s) as [Hm _].
  repeat split; try assumption. now rewrite Hl'.
Qed.

Lemma loading_until_first_fetch_witness :
  isLoading (Main.fetchData (Rejected "offline") 2
               (Main.fetchData (Responded 200 BODY_TWO_ROWS) 1 initial_feed))
  = false.
Proof.
  apply (proj1 (proj2 (proj2
           (loading_until_first_fetch Main.rows_of
              (Main.fetchData (Responded 200 BODY_TWO_ROWS) 1 initial_feed)
              (Rejected "offline") 2
              (feed_fetched Main.rows_of initial_feed (Responded 200 BODY_TWO_ROWS) 1
                 (feed_initial Main.rows_of)))))).
Defined.

(** *** What the result area shows after a failed fetch *)

Lemma main_reachable_feed (s : Main.App) :
  Main.reachable s -> feed_reachable Main.rows_of (Main.feed s).
Proof.
  induction 1 as [| s ev _ IH]; [apply feed_initial |].
  unfold Main.dispatch.
  destruct (main_effect_keeps s (Main.handle ev s)) as (_ & _ & _ & ->).
  destruct ev; cbn [Main.handle Main.setFilters Main.setCurrentPage Main.feed];
    try exact IH.
  now apply feed_fetched.
Qed.

(** X8. After a fetch that fails the result area shows the error banner,
    with the message of the failure, in place of the table: from every
    reachable state, also when the dataset published before is not empty
    and is kept. *)
Theorem failed_fetch_shows_banner (H : Host) (s : Main.App)
    (outcome : FetchOutcome) (now : Z) :
  Main.reachable s ->
  failed outcome = true ->
  exists message,
    message <> EmptyString
    /\ main_view (Main.dispatch (Main.FetchDone outcome now) s) = ErrorBanner message
    /\ data (Main.feed (Main.dispatch (Main.FetchDone outcome now) s))
       = data (Main.feed s).
Proof.
  intros Hr Hf. rewrite fetch_done_keeps. cbn [Main.feed].
  destruct (failure_message outcome Main.rows_of now (Main.feed s) Hf)
    as (message & Herr & Hne).
  exists message. split; [assumption |]. split.
  - unfold main_view. cbn [Main.feed]. unfold Main.fetchData.
    destruct (feed_reachable_loading Main.rows_of _
                (feed_fetched Main.rows_of _ outcome now (main_reachable_feed s Hr)))
      as [Hl _].
    destruct (fetchData_with_mounted Main.rows_of outcome now (Main.feed s)) as [Hm _].
    rewrite Hl, Hm, Herr. now rewrite (proj2 (truthy_true message) Hne).
  - now apply failure_keeps_data.
Qed.

Lemma failed_fetch_shows_banner_witness :
  exists message,
    message <> EmptyString
    /\ main_view (H := byte_host)
         (Main.dispatch (Main.FetchDone (Rejected "offline") 3)
            (Main.dispatch (Main.FetchDone (Responded 200 BODY_TWO_ROWS) 1) Main.initial))
       = ErrorBanner message
    /\ data (Main.feed
               (Main.dispatch (Main.FetchDone (Rejected "offline") 3)
                  (Main.dispatch (Main.FetchDone (Responded 200 BODY_TWO_ROWS) 1)
                     Main.initial)))
       = data (Main.feed
                 (Main.dispatch (Main.FetchDone (Responded 200 BODY_TWO_ROWS) 1)
                    Main.initial)).
Proof.
  apply (failed_fetch_shows_banner byte_host
           (Main.dispatch (Main.FetchDone (Responded 200 BODY_TWO_ROWS) 1) Main.initial)
           (Rejected "offline") 3).
  - apply Main.reachable_dispatch, Main.reachable_initial.
  - reflexivity.
Defined.

(** *** Records *)

Lemma reduce_headers_other (h : string) (headers : list string) :
  forall (index : nat) (values : list string) (obj : RowData),
    ~ In h headers ->
    reduce_headers headers index values obj !! h = obj !! h.
Proof.
  induction headers as [|h' headers IH]; intros index values obj Hnot;
    cbn [reduce_headers]; [reflexivity |].
  rewrite IH by (intros Hin; apply Hnot; now right).
  destruct (String.eqb h' PROTO); [reflexivity |].
  apply lookup_insert_ne. intros ->. apply Hnot. now left.
Qed.

(** Nothing is ever stored under [__proto__]. *)
Lemma reduce_headers_proto (headers : list string) :
  forall (index : nat) (values : list string) (obj : RowData),
    reduce_headers headers index values obj !! PROTO = obj !! PROTO.
Proof.
  induction headers as [|h headers IH]; intros index values obj;
    cbn [reduce_headers]; [reflexivity |].
  rewrite IH. destruct (String.eqb_spec h PROTO) as [-> | Hne]; [reflexivity |].
  now apply lookup_insert_ne.
Qed.

Lemma nth_error_default (values : list string) (i : nat) :
  match nth_error values i with
  | Some v => v
  | None => EmptyString
  end = nth i values EmptyString.
Proof.
  revert i. induction values as [|v values IH]; intros [|i]; cbn; auto.
Qed.

Lemma reduce_headers_lookup (headers : list string) :
  forall (index i : nat) (values : list string) (obj : RowData) (h : string),
    List.NoDup headers ->
    nth_error headers i = Some h ->
    h <> PROTO ->
    reduce_headers headers index values obj !! h
    = Some (normalize (nth (index + i) values EmptyString)).
Proof.
  induction headers as [|h' headers IH]; intros index i values obj h Hnd Hi Hh.
  - destruct i; discriminate.
  - apply List.NoDup_cons_iff in Hnd as [Hnot Hnd]. cbn [reduce_headers].
    destruct i as [|i]; cbn [nth_error] in Hi.
    + injection Hi as <-. rewrite reduce_headers_other by assumption.
      rewrite (proj2 (String.eqb_neq _ _) Hh).
      rewrite lookup_insert_eq, Nat.add_0_r. now rewrite nth_error_default.
    + rewrite (IH (S index) i values _ h Hnd Hi Hh). do 3 f_equal. lia.
Qed.

(** X9. A record built from headers that are all different holds, under the
    header at each position, the normalized field of the data row at that
    position, and the empty string where the data row has no field there,
    for every header but [__proto__]: under that name, as under any key that
    is no header, it holds nothing.  The fields of the data row beyond the
    last header are dropped. *)
Theorem record_lookup (headers values : list string) (i : nat) (h : string) :
  List.NoDup headers ->
  nth_error headers i = Some h ->
  h <> PROTO ->
  reduce_headers headers 0 values ∅ !! h
  = Some (normalize (nth i values EmptyString))
  /\ (length values <= i -> reduce_headers headers 0 values ∅ !! h = Some EmptyString)
  /\ (forall k, ~ In k headers \/ k = PROTO ->
        reduce_headers headers 0 values ∅ !! k = None)
  /\ reduce_headers headers 0 values ∅
     = reduce_headers headers 0 (firstn (length headers) values) ∅.
Proof.
  intros Hnd Hi Hh.
  pose proof (reduce_headers_lookup headers 0 i values ∅ h Hnd Hi Hh) as Hl.
  cbn [Nat.add] in Hl.
  split; [exact Hl |]. split; [| split].
  - intros Hshort. rewrite Hl. now rewrite nth_overflow.
  - intros k [Hk | ->].
    + now rewrite reduce_headers_other.
    + now rewrite reduce_headers_proto.
  - apply map_eq. intros k.
    destruct (string_dec k PROTO) as [-> | Hk];
      [now rewrite !reduce_headers_proto |].
    destruct (in_dec string_dec k headers) as [Hin | Hnot].
    + apply In_nth_error in Hin as [j Hj].
      rewrite (reduce_headers_lookup headers 0 j values ∅ k Hnd Hj Hk).
      rewrite (reduce_headers_lookup headers 0 j _ ∅ k Hnd Hj Hk).
      cbn [Nat.add]. do 2 f_equal.
      assert (j < length headers)%nat by (apply nth_error_Some; congruence).
      rewrite <- (firstn_skipn (length headers) values) at 1.
      destruct (Nat.lt_ge_cases j (length (firstn (length headers) values)))
        as [Hlt | Hge].
      * now rewrite app_nth1.
      * rewrite app_nth2 by assumption.
        rewrite (nth_overflow (firstn _ _)) by assumption.
        rewrite length_firstn in Hge.
        apply nth_overflow. rewrite length_skipn. lia.
    + now rewrite !reduce_headers_other.
Qed.

Lemma record_lookup_witness :
  reduce_headers [PROTO; "title"; "book"] 0 ["x"; "Azaleas"] ∅ !! "book"
  = Some EmptyString
  /\ reduce_headers [PROTO; "title"; "book"] 0 ["x"; "Azaleas"] ∅ !! PROTO = None.
Proof.
  assert (Hnd : List.NoDup [PROTO; "title"; "book"]).
  { repeat constructor; cbn; intuition discriminate. }
  assert (Hh : "book" <> PROTO) by discriminate.
  split.
  - exact (proj1 (proj2 (record_lookup [PROTO; "title"; "book"] ["x"; "Azaleas"]
                           2 "book" Hnd eq_refl Hh)) (le_n 2)).
  - exact (proj1 (proj2 (proj2 (record_lookup [PROTO; "title"; "book"]
                                  ["x"; "Azaleas"] 2 "book" Hnd eq_refl Hh)))
             PROTO (or_intror eq_refl)).
Defined.

(** *** The selection of rows *)

Lemma filter_all {A : Type} (l : list A) : List.filter (fun _ => true) l = l.
Proof. induction l as [|x l IH]; cbn [List.filter]; congruence. Qed.

Lemma filter_twice {A : Type} (f g : A -> bool) (l : list A) :
  List.filter f (List.filter g l) = List.filter (fun x => g x && f x) l.
Proof.
  induction l as [|x l IH]; cbn [List.filter]; [reflexivity |].
  destruct (g x); cbn [List.filter andb]; [destruct (f x) |]; congruence.
Qed.

(** The filter loop is one pass with the conjunction of its tests. *)
Lemma filter_through_filter (filters : gmap string string) (cols : list string) :
  forall data : list RowData,
    filter_through cols filters data
    = List.filter
        (fun row =>
           forallb
             (fun col =>
                match filters !! col with
                | Some filterValue =>
                    negb (truthy filterValue) || cell_is col filterValue row
                | None => true
                end)
             cols)
        data.
Proof.
  induction cols as [|col cols IH]; intros data; unfold filter_through in *;
    cbn [fold_left forallb].
  - now rewrite filter_all.
  - rewrite IH. unfold filter_step.
    destruct (filters !! col) as [filterValue|];
      [destruct (truthy filterValue) |]; cbn [negb orb andb];
      [apply filter_twice | reflexivity | reflexivity].
Qed.

Lemma applyFilters_filterMatch (filters : gmap string string) (data : list RowData) :
  Main.applyFilters filters data = List.filter (Alt.filterMatch filters) data.
Proof. apply (filter_through_filter filters FILTERABLE_COLUMNS). Qed.

Lemma selection_alike `{Host} (data : list RowData) (term : string)
    (filters : gmap string string) :
  Main.applySearch term (Main.applyFilters filters data)
  = List.filter (Alt.keep term filters) data.
Proof.
  rewrite applyFilters_filterMatch. unfold Main.applySearch, Alt.keep.
  destruct (truthy term); cbn [negb].
  - rewrite filter_twice. apply filter_ext. intros row.
    now destruct (Alt.filterMatch filters row).
  - apply filter_ext. intros row. now destruct (Alt.filterMatch filters row).
Qed.

Lemma insert_by_ext {A : Type} (c1 c2 : A -> A -> Z) (x : A) (l : list A) :
  (forall a b, c1 a b = c2 a b) -> insert_by c1 x l = insert_by c2 x l.
Proof.
  intros E. induction l as [|y l IH]; cbn [insert_by]; [reflexivity |].
  now rewrite E, IH.
Qed.

Lemma array_sort_ext {A : Type} (c1 c2 : A -> A -> Z) (l : list A) :
  (forall a b, c1 a b = c2 a b) -> array_sort c1 l = array_sort c2 l.
Proof.
  intros E. induction l as [|x l IH]; cbn [array_sort fold_right]; [reflexivity |].
  fold (array_sort c1 l) (array_sort c2 l). rewrite IH. now apply insert_by_ext.
Qed.

(** X10. The two variants select the same rows in the same order: the
    filter loop followed by the search step is the single pass of the other
    variant, for every dataset, term and selection.  Their results are the
    same sequence when the sort key is the first display column, on a host
    whose default collation is the Korean one. *)
Theorem variants_agree (H : Host) (data : list RowData) (term : string)
    (filters : gmap string string) :
  (forall a b, localeCompare None a b = localeCompare (Some "ko") a b) ->
  Main.applySearch term (Main.applyFilters filters data)
  = List.filter (Alt.keep term filters) data
  /\ Main.filteredData data term filters (display_header 0)
     = Alt.filteredData data term filters.
Proof.
  intros Hko. split; [apply selection_alike |].
  unfold Main.filteredData, Alt.filteredData. rewrite selection_alike.
  apply array_sort_ext. intros a b.
  unfold Main.compareRows, Alt.compareRows.
  change (String.eqb (display_header 0) (display_header 1)) with false.
  cbv zeta. now rewrite Hko.
Qed.

Lemma variants_agree_witness :
  Main.applySearch (H := byte_host) "night" (Main.applyFilters SAMPLE_FILTERS SAMPLE_DATA)
  = List.filter (Alt.keep (H := byte_host) "night" SAMPLE_FILTERS) SAMPLE_DATA
  /\ Main.filteredData (H := byte_host) SAMPLE_DATA "night" SAMPLE_FILTERS (display_header 0)
     = Alt.filteredData (H := byte_host) SAMPLE_DATA "night" SAMPLE_FILTERS.
Proof.
  apply (variants_agree byte_host SAMPLE_DATA "night" SAMPLE_FILTERS).
  intros a b. reflexivity.
Defined.

Lemma filterMatch_complete (filters : gmap string string) (row : RowData) :
  (forall col v, active_filter filters col v -> row !! col = Some v) ->
  Alt.filterMatch filters row = true.
Proof.
  intros Hall. unfold Alt.filterMatch. apply forallb_forall. intros col Hcol.
  destruct (filters !! col) as [v|] eqn:Ef; [| reflexivity].
  destruct (truthy v) eqn:Ev; [| reflexivity]. cbn [negb orb].
  apply cell_is_true, Hall. repeat split; try assumption.
  now apply truthy_true.
Qed.

Lemma matchesSearch_match `{Host} (term : string) (row : RowData) :
  matchesSearch (toLowerCase term) row = true <-> search_match term row.
Proof.
  unfold matchesSearch, search_match. rewrite existsb_exists. split.
  - intros (col & Hcol & Hm).
    destruct (row !! col) as [v|] eqn:Ev; [| discriminate].
    apply andb_true_iff in Hm as [Hv Hinc].
    exists col, v. repeat split; try assumption. now apply truthy_true.
  - intros (col & v & Hcol & Ev & Hv & Hinc).
    exists col. split; [assumption |]. rewrite Ev.
    apply andb_true_iff. split; [now apply truthy_true | assumption].
Qed.

Lemma keep_spec `{Host} (term : string) (filters : gmap string string) (row : RowData) :
  Alt.keep term filters row = true
  <-> (forall col v, active_filter filters col v -> row !! col = Some v)
      /\ (term <> EmptyString -> search_match term row).
Proof.
  split.
  - intros Hk. split.
    + intros col v Ha. apply (filterMatch_sound filters row col v); [| assumption].
      eapply keep_filterMatch; eassumption.
    + intros Hterm. unfold Alt.keep in Hk.
      destruct (Alt.filterMatch filters row); [| discriminate]. cbn [negb] in Hk.
      rewrite (proj2 (truthy_true term) Hterm) in Hk. cbn [negb] in Hk.
      now apply matchesSearch_match.
  - intros [Hf Hs]. unfold Alt.keep.
    rewrite (filterMatch_complete filters row Hf). cbn [negb].
    destruct (truthy term) eqn:Et; cbn [negb]; [| reflexivity].
    apply matchesSearch_match, Hs. now apply truthy_true.
Qed.

Lemma insert_by_Permutation {A : Type} (cmp : A -> A -> Z) (x : A) (l : list A) :
  Permutation (insert_by cmp x l) (x :: l).
Proof.
  induction l as [|y l IH]; cbn [insert_by]; [reflexivity |].
  destruct (cmp x y <=? 0)%Z; [reflexivity |].
  rewrite IH. apply perm_swap.
Qed.

Lemma array_sort_Permutation {A : Type} (cmp : A -> A -> Z) (l : list A) :
  Permutation (array_sort cmp l) l.
Proof.
  induction l as [|x l IH]; cbn [array_sort fold_right]; [reflexivity |].
  fold (array_sort cmp l). rewrite insert_by_Permutation. now constructor.
Qed.

(** X11. The result holds exactly the records of the dataset that hold the
    selected value in every filterable column with a non-empty selection
    and, when the term is not empty, pass the search; it is a rearrangement
    of the selected records, each kept as many times as the dataset holds
    it, so it is never longer than the dataset.  Both variants. *)
Theorem result_exact (H : Host) (data : list RowData) (term : string)
    (filters : gmap string string) (sortKey : string) (row : RowData) :
  (In row (Main.filteredData data term filters sortKey)
   <-> selected data term filters row)
  /\ (In row (Alt.filteredData data term filters)
      <-> selected data term filters row)
  /\ Permutation (Main.filteredData data term filters sortKey)
       (List.filter (Alt.keep term filters) data)
  /\ Permutation (Alt.filteredData data term filters)
       (List.filter (Alt.keep term filters) data)
  /\ (length (Main.filteredData data term filters sortKey) <= length data)%nat
  /\ (length (Alt.filteredData data term filters) <= length data)%nat.
Proof.
  unfold selected, Main.filteredData, Alt.filteredData.
  rewrite selection_alike, !array_sort_In, !array_sort_length, filter_In, keep_spec.
  repeat split; try tauto; try apply array_sort_Permutation; apply filter_length_le.
Qed.

(** *** The option lists of the dropdowns *)

Lemma existsb_eqb_In (x : string) (seen : list string) :
  existsb (String.eqb x) seen = true <-> In x seen.
Proof.
  rewrite existsb_exists. split.
  - intros (y & Hy & E). apply String.eqb_eq in E. now subst.
  - intros Hx. exists x. split; [assumption | apply String.eqb_refl].
Qed.

Lemma unique_go_In (xs : list string) :
  forall (seen : list string) (x : string),
    In x (unique_go xs seen) <-> In x xs /\ ~ In x seen.
Proof.
  induction xs as [|y xs IH]; intros seen x; cbn [unique_go In]; [tauto |].
  destruct (existsb (String.eqb y) seen) eqn:E.
  - apply existsb_eqb_In in E. rewrite IH. split; [tauto |].
    intros [[-> | Hx] Hnot]; [contradiction | tauto].
  - assert (Hy : ~ In y seen) by (rewrite <- existsb_eqb_In; congruence).
    cbn [In]. rewrite IH. cbn [In]. split.
    + intros [-> | (Hx & Hnot)]; [tauto |]. split; [tauto |].
      intros Hs. apply Hnot. now right.
    + intros [[-> | Hx] Hnot]; [now left |].
      destruct (string_dec y x) as [-> | Hne]; [now left |]. right.
      split; [assumption |]. intros [E' | Hs]; [congruence | contradiction].
Qed.

Lemma unique_go_NoDup (xs : list string) :
  forall seen : list string, List.NoDup (unique_go xs seen).
Proof.
  induction xs as [|y xs IH]; intros seen; cbn [unique_go]; [constructor |].
  destruct (existsb (String.eqb y) seen); [apply IH |].
  constructor; [| apply IH]. rewrite unique_go_In. cbn [In]. tauto.
Qed.

Lemma column_values_In (col : string) (data : list RowData) (v : string) :
  In v (column_values col data)
  <-> v <> EmptyString /\ exists row, In row data /\ row !! col = Some v.
Proof.
  unfold column_values. rewrite in_flat_map. split.
  - intros (row & Hrow & Hv).
    destruct (row !! col) as [w|] eqn:Ew; [| contradiction].
    destruct (truthy w) eqn:Et; [| contradiction].
    destruct Hv as [<- | []]. split; [now apply truthy_true | now exists row].
  - intros (Hv & row & Hrow & Ew). exists row. split; [assumption |].
    rewrite Ew, (proj2 (truthy_true v) Hv). now left.
Qed.

Lemma options_of_In `{Host} (col : string) (data : list RowData) (v : string) :
  In v (options_of col data)
  <-> v <> EmptyString /\ exists row, In row data /\ row !! col = Some v.
Proof.
  unfold options_of, unique.
  rewrite array_sort_In, unique_go_In, column_values_In. cbn [In]. tauto.
Qed.

Lemma options_of_NoDup `{Host} (col : string) (data : list RowData) :
  List.NoDup (options_of col data).
Proof.
  unfold options_of, unique.
  apply (Permutation_NoDup (l := unique_go (column_values col data) [])).
  - symmetry. apply array_sort_Permutation.
  - apply unique_go_NoDup.
Qed.

Lemma fold_insert_lookup {V : Type} (f : string -> V) (cols : list string) :
  forall (m : gmap string V) (col : string),
    In col cols ->
    fold_left (fun options c => <[c := f c]> options) cols m !! col = Some (f col).
Proof.
  induction cols as [|c cols IH]; intros m col Hin; [destruct Hin |].
  cbn [fold_left].
  destruct (in_dec string_dec col cols) as [Hlater | Hnot]; [now apply IH |].
  destruct Hin as [-> | Hin]; [| contradiction].
  clear IH. revert m. induction cols as [|c cols IH]; intros m; cbn [fold_left].
  - apply lookup_insert_eq.
  - assert (c <> col) by (intros ->; apply Hnot; now left).
    rewrite insert_insert_ne by congruence.
    apply IH. intros Hin. apply Hnot. now right.
Qed.

(** X12. For each filterable column the option list of [filterOptions]
    holds exactly the non-empty values that some record of the dataset has
    in that column, each once, in the order of the default collation. *)
Theorem filter_options_exact (H : Host) (data : list RowData) (col : string) :
  Collation H ->
  In col FILTERABLE_COLUMNS ->
  exists options,
    filterOptions data !! col = Some options
    /\ (forall v, In v options
        <-> v <> EmptyString /\ exists row, In row data /\ row !! col = Some v)
    /\ List.NoDup options
    /\ sorted_by (localeCompare None) options.
Proof.
  intros Hc Hcol. exists (options_of col data). split; [| split; [| split]].
  - unfold filterOptions.
    apply (fold_insert_lookup (fun c => options_of c data)); assumption.
  - intros v. apply options_of_In.
  - apply options_of_NoDup.
  - apply array_sort_sorted, Hc.
Qed.

Lemma filter_options_exact_witness :
  exists options,
    filterOptions (H := byte_host) SAMPLE_DATA !! display_header 1 = Some options
    /\ (forall v, In v options
        <-> v <> EmptyString
            /\ exists row, In row SAMPLE_DATA /\ row !! display_header 1 = Some v)
    /\ List.NoDup options
    /\ sorted_by (localeCompare (Host := byte_host) None) options.
Proof.
  apply (filter_options_exact byte_host SAMPLE_DATA (display_header 1)).
  - exact byte_host_collation.
  - left. reflexivity.
Defined.

Lemma filter_through_In (filters : gmap string string) (cols : list string)
    (data : list RowData) (row : RowData) :
  In row (filter_through cols filters data)
  <-> In row data
      /\ forall c fv,
           In c cols -> filters !! c = Some fv -> fv <> EmptyString ->
           row !! c = Some fv.
Proof.
  rewrite filter_through_filter, filter_In, forallb_forall.
  split; intros [Hrow Hall]; (split; [assumption |]).
  - intros c fv Hc Hf Hv. specialize (Hall c Hc). rewrite Hf in Hall.
    rewrite (proj2 (truthy_true fv) Hv) in Hall. now apply cell_is_true.
  - intros c Hc. destruct (filters !! c) as [fv|] eqn:Ef; [| reflexivity].
    destruct (truthy fv) eqn:Et; [| reflexivity]. cbn [negb orb].
    apply cell_is_true, (Hall c fv Hc Ef). now apply truthy_true.
Qed.

Lemma filter_through_inactive (filters : gmap string string) (cols : list string) :
  forall data : list RowData,
    (forall c fv, In c cols -> filters !! c = Some fv -> fv = EmptyString) ->
    filter_through cols filters data = data.
Proof.
  induction cols as [|c cols IH]; intros data Hnone; unfold filter_through in *;
    cbn [fold_left]; [reflexivity |].
  assert (E : filter_step filters data c = data).
  { unfold filter_step. destruct (filters !! c) as [fv|] eqn:Ef; [| reflexivity].
    now rewrite (Hnone c fv (or_introl eq_refl) Ef). }
  rewrite E. apply IH. intros c' fv Hc'. apply Hnone. now right.
Qed.

Lemma dynamic_fold_other `{Host} (filters : gmap string string) (cols : list string) :
  forall (options : gmap string (list string)) (temp_data : list RowData) (col : string),
    ~ In col cols ->
    fst
      (fold_left
         (fun state c =>
            (<[c := options_of c (snd state)]> (fst state),
             filter_step filters (snd state) c))
         cols (options, temp_data)) !! col
    = options !! col.
Proof.
  induction cols as [|c cols IH]; intros options temp_data col Hnot;
    cbn [fold_left fst snd]; [reflexivity |].
  rewrite IH by (intros Hin; apply Hnot; now right).
  apply lookup_insert_ne. intros ->. apply Hnot. now left.
Qed.

Lemma dynamic_fold_lookup `{Host} (filters : gmap string string) (col : string)
    (later : list string) (earlier : list string) :
  forall (options : gmap string (list string)) (temp_data : list RowData),
    ~ In col later ->
    fst
      (fold_left
         (fun state c =>
            (<[c := options_of c (snd state)]> (fst state),
             filter_step filters (snd state) c))
         (earlier ++ col :: later) (options, temp_data)) !! col
    = Some (options_of col (filter_through earlier filters temp_data)).
Proof.
  induction earlier as [|c earlier IH]; intros options temp_data Hnot;
    cbn [app fold_left fst snd].
  - rewrite dynamic_fold_other by assumption. apply lookup_insert_eq.
  - now rewrite IH.
Qed.

Lemma nth_error_split_at {A : Type} (l : list A) :
  forall (i : nat) (x : A),
    nth_error l i = Some x -> l = firstn i l ++ x :: skipn (S i) l.
Proof.
  induction l as [|y l IH]; intros [|i] x Hi; try discriminate.
  - injection Hi as ->. reflexivity.
  - cbn [nth_error] in Hi. cbn [firstn skipn app]. f_equal.
    change (skipn (S i) l) with (skipn (S i) l). now apply IH.
Qed.

Lemma NoDup_app_disjoint {A : Type} (l1 l2 : list A) (c : A) :
  List.NoDup (l1 ++ l2) -> In c l1 -> ~ In c l2.
Proof.
  induction l1 as [|y l1 IH]; intros Hnd Hin; [destruct Hin |].
  cbn [app] in Hnd. apply List.NoDup_cons_iff in Hnd as [Hy Hnd].
  destruct Hin as [-> | Hin]; [| now apply IH].
  intros Hc. apply Hy, in_or_app. now right.
Qed.

Lemma filterable_NoDup : List.NoDup FILTERABLE_COLUMNS.
Proof. repeat constructor; cbn [In]; intuition discriminate. Qed.

(** The columns before and after a filterable column. *)
Lemma filterable_split (i : nat) (col : string) :
  nth_error FILTERABLE_COLUMNS i = Some col ->
  FILTERABLE_COLUMNS
  = firstn i FILTERABLE_COLUMNS ++ col :: skipn (S i) FILTERABLE_COLUMNS
  /\ ~ In col (firstn i FILTERABLE_COLUMNS)
  /\ ~ In col (skipn (S i) FILTERABLE_COLUMNS)
  /\ (forall c, In c (firstn i FILTERABLE_COLUMNS) ->
        ~ In c (skipn (S i) FILTERABLE_COLUMNS)).
Proof.
  intros Hi. pose proof (nth_error_split_at _ _ _ Hi) as E.
  pose proof filterable_NoDup as Hnd. rewrite E in Hnd.
  split; [exact E |].
  pose proof (List.NoDup_remove _ _ _ Hnd) as [Hrest Hcol].
  repeat split.
  - intros Hin. apply Hcol, in_or_app. now left.
  - intros Hin. apply Hcol, in_or_app. now right.
  - intros c Hc. now apply (NoDup_app_disjoint _ _ c Hrest).
Qed.

Lemma dynamic_options_lookup `{Host} (filters : gmap string string)
    (data : list RowData) (i : nat) (col : string) :
  nth_error FILTERABLE_COLUMNS i = Some col ->
  dynamicFilterOptions filters data !! col
  = Some (options_of col (filter_through (firstn i FILTERABLE_COLUMNS) filters data)).
Proof.
  intros Hi. destruct (filterable_split i col Hi) as (E & _ & Hlater & _).
  unfold dynamicFilterOptions. rewrite E at 1.
  now apply dynamic_fold_lookup.
Qed.

(** X13. The option list that [dynamicFilterOptions] gives a filterable
    column holds exactly the non-empty values that the column has in the
    records passing the non-empty selections of the columns before it: the
    selection of the column itself and of the columns after it does not
    count.  Where no column before it has a non-empty selection, it is the
    list of [filterOptions]. *)
Theorem dynamic_options_exact (H : Host) (filters : gmap string string)
    (data : list RowData) (i : nat) (col : string) :
  nth_error FILTERABLE_COLUMNS i = Some col ->
  exists options,
    dynamicFilterOptions filters data !! col = Some options
    /\ (forall v, In v options
        <-> v <> EmptyString
            /\ exists row,
                 In row data
                 /\ (forall c fv,
                       In c (firstn i FILTERABLE_COLUMNS) ->
                       filters !! c = Some fv -> fv <> EmptyString ->
                       row !! c = Some fv)
                 /\ row !! col = Some v)
    /\ ((forall c fv,
           In c (firstn i FILTERABLE_COLUMNS) ->
           filters !! c = Some fv -> fv = EmptyString) ->
        filterOptions data !! col = Some options).
Proof.
  intros Hi.
  exists (options_of col (filter_through (firstn i FILTERABLE_COLUMNS) filters data)).
  split; [now apply dynamic_options_lookup |]. split.
  - intros v. rewrite options_of_In. split.
    + intros (Hv & row & Hrow & Ev). apply filter_through_In in Hrow as [Hrow Hall].
      split; [assumption |]. now exists row.
    + intros (Hv & row & Hrow & Hall & Ev). split; [assumption |].
      exists row. split; [| assumption]. apply filter_through_In. now split.
  - intros Hnone. rewrite filter_through_inactive by assumption.
    unfold filterOptions.
    apply (fold_insert_lookup (fun c => options_of c data)).
    eapply nth_error_In, Hi.
Qed.

Lemma dynamic_options_exact_witness :
  exists options,
    dynamicFilterOptions (H := byte_host) SAMPLE_FILTERS SAMPLE_DATA !! display_header 2
    = Some options
    /\ (forall v, In v options
        <-> v <> EmptyString
            /\ exists row,
                 In row SAMPLE_DATA
                 /\ (forall c fv,
                       In c (firstn 1 FILTERABLE_COLUMNS) ->
                       SAMPLE_FILTERS !! c = Some fv -> fv <> EmptyString ->
                       row !! c = Some fv)
                 /\ row !! display_header 2 = Some v)
    /\ ((forall c fv,
           In c (firstn 1 FILTERABLE_COLUMNS) ->
           SAMPLE_FILTERS !! c = Some fv -> fv = EmptyString) ->
        filterOptions (H := byte_host) SAMPLE_DATA !! display_header 2 = Some options).
Proof.
  apply (dynamic_options_exact byte_host SAMPLE_FILTERS SAMPLE_DATA 1 (display_header 2)).
  reflexivity.
Defined.

(** *** Changing a selection *)

Lemma fold_delete_out (cols : list string) :
  forall (m : gmap string string) (k : string),
    ~ In k cols ->
    fold_left (fun m lower => delete lower m) cols m !! k = m !! k.
Proof.
  induction cols as [|c cols IH]; intros m k Hnot; cbn [fold_left]; [reflexivity |].
  rewrite IH by (intros Hin; apply Hnot; now right).
  apply lookup_delete_ne. intros ->. apply Hnot. now left.
Qed.

Lemma fold_delete_in (cols : list string) :
  forall (m : gmap string string) (k : string),
    In k cols ->
    fold_left (fun m lower => delete lower m) cols m !! k = None.
Proof.
  induction cols as [|c cols IH]; intros m k Hin; [destruct Hin |].
  cbn [fold_left].
  destruct (in_dec string_dec k cols) as [Hlater | Hnot]; [now apply IH |].
  destruct Hin as [-> | Hin]; [| contradiction].
  rewrite fold_delete_out by assumption. apply lookup_delete_eq.
Qed.

Lemma fold_delete_some (cols : list string) (m : gmap string string) (k v : string) :
  fold_left (fun m lower => delete lower m) cols m !! k = Some v -> m !! k = Some v.
Proof.
  destruct (in_dec string_dec k cols) as [Hin | Hnot].
  - now rewrite fold_delete_in.
  - now rewrite fold_delete_out.
Qed.

Lemma indexOf_nth (l : list string) :
  forall (i : nat) (x : string),
    List.NoDup l -> nth_error l i = Some x -> indexOf x l = Some i.
Proof.
  induction l as [|y l IH]; intros i x Hnd Hi; [destruct i; discriminate |].
  apply List.NoDup_cons_iff in Hnd as [Hy Hnd]. cbn [indexOf].
  destruct i as [|i]; cbn [nth_error] in Hi.
  - injection Hi as ->. now rewrite String.eqb_refl.
  - assert (E : String.eqb y x = false).
    { apply String.eqb_neq. intros ->. apply Hy. eapply nth_error_In, Hi. }
    rewrite E. now rewrite (IH i x Hnd Hi).
Qed.

Lemma handleFilterChange_at (i : nat) (column value : string)
    (prev : gmap string string) :
  nth_error FILTERABLE_COLUMNS i = Some column ->
  Main.handleFilterChange column value prev
  = fold_left (fun m lower => delete lower m)
      (skipn (S i) FILTERABLE_COLUMNS)
      (if truthy value then <[column := value]> prev else delete column prev).
Proof.
  intros Hi. unfold Main.handleFilterChange.
  now rewrite (indexOf_nth _ i column filterable_NoDup Hi).
Qed.

Lemma handleFilterChange_some (column value : string) (prev : gmap string string)
    (k v : string) :
  Main.handleFilterChange column value prev !! k = Some v ->
  (k = column /\ v = value /\ value <> EmptyString) \/ prev !! k = Some v.
Proof.
  unfold Main.handleFilterChange. intros Hk.
  assert (Hnew : (if truthy value then <[column := value]> prev
                  else delete column prev) !! k = Some v).
  { destruct (indexOf column FILTERABLE_COLUMNS); [| exact Hk].
    eapply fold_delete_some, Hk. }
  clear Hk. destruct (truthy value) eqn:Et.
  - destruct (string_dec column k) as [-> | Hne].
    + rewrite lookup_insert_eq in Hnew. injection Hnew as <-. left.
      repeat split. now apply truthy_true.
    + rewrite lookup_insert_ne in Hnew by assumption. now right.
  - destruct (string_dec column k) as [-> | Hne].
    + now rewrite lookup_delete_eq in Hnew.
    + rewrite lookup_delete_ne in Hnew by assumption. now right.
Qed.

Lemma handleFilterChange_lookup (i : nat) (column value : string)
    (prev : gmap string string) :
  nth_error FILTERABLE_COLUMNS i = Some column ->
  Main.handleFilterChange column value prev !! column
  = (if truthy value then Some value else None)
  /\ (forall lower,
        In lower (skipn (S i) FILTERABLE_COLUMNS) ->
        Main.handleFilterChange column value prev !! lower = None)
  /\ (forall k,
        k <> column -> ~ In k (skipn (S i) FILTERABLE_COLUMNS) ->
        Main.handleFilterChange column value prev !! k = prev !! k).
Proof.
  intros Hi. rewrite (handleFilterChange_at i column value prev Hi).
  destruct (filterable_split i column Hi) as (_ & _ & Hlater & _).
  split; [| split].
  - rewrite fold_delete_out by assumption.
    destruct (truthy value); [apply lookup_insert_eq | apply lookup_delete_eq].
  - intros lower Hin. now apply fold_delete_in.
  - intros k Hne Hk. rewrite fold_delete_out by assumption.
    destruct (truthy value);
      [apply lookup_insert_ne | apply lookup_delete_ne]; congruence.
Qed.

(** X14. Changing the selection of a filterable column stores the value
    under the column, or removes the column when the value is empty, removes
    the selection of every filterable column after it, and leaves every
    other key as it was; the selection it leaves holds no empty value that
    the selection before did not hold. *)
Theorem filter_change_cascade (i : nat) (column value : string)
    (prev : gmap string string) :
  nth_error FILTERABLE_COLUMNS i = Some column ->
  Main.handleFilterChange column value prev !! column
  = (if truthy value then Some value else None)
  /\ (forall lower,
        In lower (skipn (S i) FILTERABLE_COLUMNS) ->
        Main.handleFilterChange column value prev !! lower = None)
  /\ (forall k,
        k <> column -> ~ In k (skipn (S i) FILTERABLE_COLUMNS) ->
        Main.handleFilterChange column value prev !! k = prev !! k)
  /\ (forall k,
        Main.handleFilterChange column value prev !! k = Some EmptyString ->
        prev !! k = Some EmptyString).
Proof.
  intros Hi.
  destruct (handleFilterChange_lookup i column value prev Hi) as (Hcol & Hlow & Hkeep).
  repeat split; try assumption.
  intros k Hk. apply handleFilterChange_some in Hk as [(_ & <- & Hne) | Hk];
    [congruence | assumption].
Qed.

Lemma filter_change_cascade_witness :
  Main.handleFilterChange (display_header 1) "Literature B" SAMPLE_FILTERS
    !! display_header 1
  = Some "Literature B".
Proof.
  exact (proj1 (filter_change_cascade 0 (display_header 1) "Literature B"
                  SAMPLE_FILTERS eq_refl)).
Defined.

(** X15. An option that a dropdown offers never leads to an empty result:
    once it is selected, with the search box empty, the result holds a
    record, whatever was selected before in the columns after it. *)
Theorem offered_option_has_rows (H : Host) (data : list RowData)
    (filters : gmap string string) (i : nat) (col : string)
    (options : list string) (v sortKey : string) :
  nth_error FILTERABLE_COLUMNS i = Some col ->
  dynamicFilterOptions filters data !! col = Some options ->
  In v options ->
  Main.filteredData data EmptyString (Main.handleFilterChange col v filters) sortKey
  <> [].
Proof.
  intros Hi Hopt Hv.
  rewrite (dynamic_options_lookup filters data i col Hi) in Hopt.
  injection Hopt as <-.
  apply options_of_In in Hv as (Hne & row & Hrow & Ev).
  apply filter_through_In in Hrow as [Hrow Hall].
  destruct (filterable_split i col Hi) as (E & Hbefore & Hlater & Hdisj).
  destruct (handleFilterChange_lookup i col v filters Hi) as (Hcol & Hlow & Hkeep).
  rewrite (proj2 (truthy_true v) Hne) in Hcol.
  assert (Hin : In row (Main.filteredData data EmptyString
                          (Main.handleFilterChange col v filters) sortKey)).
  { unfold Main.filteredData. apply array_sort_In.
    unfold Main.applySearch. rewrite truthy_empty.
    change (Main.applyFilters (Main.handleFilterChange col v filters) data)
      with (filter_through FILTERABLE_COLUMNS
              (Main.handleFilterChange col v filters) data).
    apply filter_through_In. split; [assumption |].
    intros c fv Hc Hf Hfv. rewrite E in Hc.
    apply in_app_or in Hc as [Hc | [<- | Hc]].
    - rewrite Hkeep in Hf.
      + now apply (Hall c fv).
      + intros ->. contradiction.
      + now apply Hdisj.
    - congruence.
    - rewrite (Hlow c Hc) in Hf. discriminate. }
  intros Hnil. rewrite Hnil in Hin. destruct Hin.
Qed.

Lemma offered_option_has_rows_witness :
  Main.filteredData (H := byte_host) SAMPLE_DATA EmptyString
    (Main.handleFilterChange (display_header 2) "Prose" SAMPLE_FILTERS)
    (display_header 0)
  <> [].
Proof.
  apply (offered_option_has_rows byte_host SAMPLE_DATA SAMPLE_FILTERS 1
           (display_header 2) ["Poetry"; "Prose"] "Prose" (display_header 0)).
  - reflexivity.
  - vm_compute. reflexivity.
  - right. left. reflexivity.
Defined.

Lemma some_filter_spec (filters : gmap string string) :
  some_filter filters = true
  <-> exists k v, filters !! k = Some v /\ v <> EmptyString.
Proof.
  unfold some_filter. rewrite existsb_exists. split.
  - intros ([k v] & Hin & Hv). exists k, v. split.
    + apply elem_of_map_to_list. now apply list_elem_of_In.
    + now apply truthy_true.
  - intros (k & v & Hk & Hv). exists (k, v). split.
    + apply list_elem_of_In. now apply elem_of_map_to_list.
    + now apply truthy_true.
Qed.

Lemma main_reachable_selections (s : Main.App) :
  Main.reachable s ->
  forall k v, Main.filters s !! k = Some v -> v <> EmptyString.
Proof.
  induction 1 as [| s ev _ IH]; intros k v.
  { unfold Main.initial. cbn [Main.filters]. now rewrite lookup_empty. }
  unfold Main.dispatch.
  destruct (main_effect_keeps s (Main.handle ev s)) as (_ & -> & _ & _).
  destruct ev; cbn [Main.handle Main.setFilters Main.setCurrentPage Main.filters];
    try apply IH.
  - intros Hk. apply handleFilterChange_some in Hk as [(_ & -> & Hv) | Hk];
      [assumption | now apply (IH k)].
  - unfold Main.handleResetFilters. now rewrite lookup_empty.
Qed.

(** X16. No reachable state of the component stores an empty selection:
    every value held by [filters] is a non-empty string, so the button that
    resets the filters is visible exactly when [filters] holds a key. *)
Theorem stored_selections_nonempty (s : Main.App) :
  Main.reachable s ->
  (forall k v, Main.filters s !! k = Some v -> v <> EmptyString)
  /\ (some_filter (Main.filters s) = true <-> Main.filters s <> ∅).
Proof.
  intros Hr. pose proof (main_reachable_selections s Hr) as Hall.
  split; [exact Hall |]. rewrite some_filter_spec. split.
  - intros (k & v & Hk & _) Hempty. rewrite Hempty in Hk.
    now rewrite lookup_empty in Hk.
  - intros Hne. apply map_choose in Hne as (k & v & Hk).
    exists k, v. split; [assumption | now apply (Hall k)].
Qed.

Lemma stored_selections_nonempty_witness :
  (forall k v,
     Main.filters
       (Main.dispatch (Main.FilterSelect (display_header 1) EmptyString)
          (Main.dispatch (Main.FilterSelect (display_header 1) "Literature A")
             Main.initial)) !! k = Some v ->
     v <> EmptyString)
  /\ (some_filter
        (Main.filters
           (Main.dispatch (Main.FilterSelect (display_header 1) EmptyString)
              (Main.dispatch (Main.FilterSelect (display_header 1) "Literature A")
                 Main.initial))) = true
      <-> Main.filters
            (Main.dispatch (Main.FilterSelect (display_header 1) EmptyString)
               (Main.dispatch (Main.FilterSelect (display_header 1) "Literature A")
                  Main.initial)) <> ∅).
Proof.
  apply (stored_selections_nonempty
           (Main.dispatch (Main.FilterSelect (display_header 1) EmptyString)
              (Main.dispatch (Main.FilterSelect (display_header 1) "Literature A")
                 Main.initial))).
  apply Main.reachable_dispatch, Main.reachable_dispatch, Main.reachable_initial.
Defined.

Lemma filterMatch_ext (f g : gmap string string) (row : RowData) :
  (forall c, In c FILTERABLE_COLUMNS ->
     match f !! c with Some v => truthy v = false | None => True end
     /\ match g !! c with Some v => truthy v = false | None => True end
     \/ f !! c = g !! c) ->
  Alt.filterMatch f row = Alt.filterMatch g row.
Proof.
  intros Hsame. unfold Alt.filterMatch.
  induction FILTERABLE_COLUMNS as [|c cols IH]; cbn [forallb]; [reflexivity |].
  rewrite IH by (intros c' Hc'; apply Hsame; now right). f_equal.
  destruct (Hsame c (or_introl eq_refl)) as [[Hf Hg] | ->]; [| reflexivity].
  destruct (f !! c) as [v|], (g !! c) as [w|]; rewrite ?Hf, ?Hg; reflexivity.
Qed.

(** X17. In the variant with independent filters the choice of all values
    is stored as the empty string under the column; the result is the one
    obtained with the column removed from the selection, and a change of one
    column leaves the selection of every other column as it was. *)
Theorem empty_selection_filters_nothing (H : Host) (data : list RowData)
    (term column : string) (prev : gmap string string) :
  Alt.handleFilterChange column EmptyString prev !! column = Some EmptyString
  /\ Alt.filteredData data term (Alt.handleFilterChange column EmptyString prev)
     = Alt.filteredData data term (delete column prev)
  /\ (forall value k,
        k <> column -> Alt.handleFilterChange column value prev !! k = prev !! k).
Proof.
  unfold Alt.handleFilterChange. split; [apply lookup_insert_eq |]. split.
  - unfold Alt.filteredData. f_equal. apply filter_ext. intros row.
    unfold Alt.keep.
    rewrite (filterMatch_ext (<[column := EmptyString]> prev) (delete column prev) row);
      [reflexivity |].
    intros c _.
    destruct (string_dec column c) as [-> | Hne].
    + left. now rewrite lookup_insert_eq, lookup_delete_eq.
    + right. now rewrite lookup_insert_ne, lookup_delete_ne.
  - intros value k Hne. apply lookup_insert_ne. congruence.
Qed.

(** *** The two splitters *)

Lemma plain_scan_split (s : string) :
  forall (cur : string) (vals : list string),
    count_quotes s = 0%nat ->
    scan s false cur vals = vals ++ split_go s cur.
Proof.
  induction s as [|c rest IH]; intros cur vals Hq; cbn [scan split_go]; [reflexivity |].
  cbn [count_quotes] in Hq.
  destruct (Ascii.eqb c DQUOTE); [discriminate |]. cbn [Nat.add] in Hq.
  destruct (Ascii.eqb c COMMA); cbn [andb negb].
  - rewrite IH by assumption. now rewrite <- app_assoc.
  - now apply IH.
Qed.

Lemma plain_regex_split (s : string) :
  forall cur : string,
    count_quotes s = 0%nat -> regex_split_go s cur = split_go s cur.
Proof.
  induction s as [|c rest IH]; intros cur Hq; cbn [regex_split_go split_go];
    [reflexivity |].
  cbn [count_quotes] in Hq.
  destruct (Ascii.eqb c DQUOTE); [discriminate |]. cbn [Nat.add] in Hq.
  rewrite Hq. cbn [Nat.even]. rewrite andb_true_r.
  destruct (Ascii.eqb c COMMA); now rewrite IH.
Qed.

(** X18. On a line that holds no quote character the scanner, the split
    at every comma and the split by the regular expression return the same
    fields. *)
Theorem plain_line_splits (line : string) :
  count_quotes line = 0%nat ->
  parseCsvLine line = split_comma line
  /\ regex_split line = split_comma line.
Proof.
  intros Hq. split.
  - exact (plain_scan_split line EmptyString [] Hq).
  - exact (plain_regex_split line EmptyString Hq).
Qed.

Lemma plain_line_splits_witness :
  parseCsvLine "Azaleas,Literature A,,Modern"
  = split_comma "Azaleas,Literature A,,Modern"
  /\ regex_split "Azaleas,Literature A,,Modern"
     = split_comma "Azaleas,Literature A,,Modern".
Proof.
  apply (plain_line_splits "Azaleas,Literature A,,Modern"). reflexivity.
Defined.

Lemma scan_length :
  forall (s : string) (q : bool) (cur : string) (vals : list string),
    (length (scan s q cur vals) + quoted_commas_go s q
     = length vals + 1 + count_commas s)%nat.
Proof.
  induction s as [s IH] using string_length_ind. intros q cur vals.
  destruct s as [|c rest].
  - cbn [scan quoted_commas_go count_commas]. rewrite length_app. cbn [length]. lia.
  - cbn [scan quoted_commas_go count_commas].
    destruct (Ascii.eqb_spec c DQUOTE) as [-> | Hc].
    + change (Ascii.eqb DQUOTE COMMA) with false. cbn [Nat.add].
      destruct q; [destruct rest as [|next rest'] |].
      * rewrite IH by shorter. reflexivity.
      * destruct (Ascii.eqb_spec next DQUOTE) as [-> | Hn].
        -- rewrite IH by shorter. cbn [count_commas].
           change (Ascii.eqb DQUOTE COMMA) with false. reflexivity.
        -- rewrite IH by shorter. reflexivity.
      * rewrite IH by shorter. reflexivity.
    + destruct (Ascii.eqb c COMMA); destruct q; cbn [andb negb].
      * pose proof (IH rest ltac:(shorter) true (snoc cur c) vals). lia.
      * pose proof (IH rest ltac:(shorter) false EmptyString (vals ++ [cur])) as E.
        rewrite length_app in E. cbn [length] in E. lia.
      * pose proof (IH rest ltac:(shorter) true (snoc cur c) vals). lia.
      * pose proof (IH rest ltac:(shorter) false (snoc cur c) vals). lia.
Qed.

(** X19. The scanner returns one field more than the line has commas
    outside quoted fields: at least one field, also on the empty line, and
    at most one more than the line has commas. *)
Theorem field_count (line : string) :
  (length (parseCsvLine line) + quoted_commas line = S (count_commas line))%nat
  /\ (1 <= length (parseCsvLine line) <= S (count_commas line))%nat
  /\ (quoted_commas line <= count_commas line)%nat.
Proof.
  pose proof (scan_length line false EmptyString []) as E. cbn [length] in E.
  unfold parseCsvLine, quoted_commas.
  assert (1 <= length (scan line false EmptyString []))%nat.
  { destruct (scan line false EmptyString []) eqn:Es; [| cbn [length]; lia].
    exfalso. revert Es. clear E.
    assert (G : forall s q cur vals, scan s q cur vals <> []).
    { clear. induction s as [s IH] using string_length_ind. intros q cur vals.
      destruct s as [|c rest]; cbn [scan].
      - now destruct vals.
      - destruct (Ascii.eqb c DQUOTE).
        + destruct q; [destruct rest as [|next rest'] |];
            [| destruct (Ascii.eqb next DQUOTE) |]; apply IH; shorter.
        + destruct (Ascii.eqb c COMMA && negb q); apply IH; shorter. }
    apply G. }
  lia.
Qed.

Lemma regex_split_go_nonempty (s : string) :
  forall cur : string, regex_split_go s cur <> [].
Proof.
  induction s as [|c rest IH]; intros cur; cbn [regex_split_go]; [discriminate |].
  destruct (Ascii.eqb c COMMA && Nat.even (count_quotes rest));
    [discriminate | apply IH].
Qed.

Lemma concat_cons (sep x : string) (l : list string) :
  l <> [] -> String.concat sep (x :: l) = x +:+ sep +:+ String.concat sep l.
Proof. destruct l; [congruence | reflexivity]. Qed.

Lemma regex_split_go_concat (s : string) :
  forall cur : string,
    String.concat "," (regex_split_go s cur) = cur +:+ s.
Proof.
  induction s as [|c rest IH]; intros cur; cbn [regex_split_go].
  - cbn [String.concat]. now rewrite append_empty_r.
  - destruct (Ascii.eqb_spec c COMMA) as [-> | Hc]; cbn [andb].
    + destruct (Nat.even (count_quotes rest)).
      * rewrite concat_cons by apply regex_split_go_nonempty.
        rewrite IH. reflexivity.
      * rewrite IH. apply snoc_append.
    + rewrite IH. apply snoc_append.
Qed.

Lemma final_inQuotes_parity :
  forall (s : string) (q : bool),
    final_inQuotes s q = xorb q (Nat.odd (count_quotes s)).
Proof.
  induction s as [s IH] using string_length_ind. intros q.
  destruct s as [|c rest]; cbn [final_inQuotes count_quotes].
  - now destruct q.
  - destruct (Ascii.eqb_spec c DQUOTE) as [-> | Hc]; cbn [Nat.add].
    + assert (Ht : final_inQuotes rest (negb q)
                   = xorb q (Nat.odd (S (count_quotes rest)))).
      { rewrite IH by shorter. rewrite Nat.odd_succ, <- Nat.negb_odd.
        now destruct q, (Nat.odd (count_quotes rest)). }
      destruct q; [destruct rest as [|next rest'] |]; try exact Ht.
      destruct (Ascii.eqb_spec next DQUOTE) as [-> | Hn]; [| exact Ht].
      rewrite IH by shorter. cbn [count_quotes].
      change (Ascii.eqb DQUOTE DQUOTE) with true. cbn [Nat.add].
      now rewrite Nat.odd_succ_succ.
    + apply IH. shorter.
Qed.

Lemma balanced_even (line : string) :
  balanced line = Nat.even (count_quotes line).
Proof.
  unfold balanced. rewrite final_inQuotes_parity. cbn [xorb].
  apply Nat.negb_odd.
Qed.

(** The scanner and the regular expression walk a line with an even number
    of quotes side by side: [cur_r] is the piece the expression has
    gathered, [cur_s] the field the scanner has, and the scanner, started on
    the piece, reaches its present state. *)
Lemma scan_regex_pieces :
  forall (s : string) (q : bool) (cur_s cur_r : string) (vals : list string),
    Nat.even (count_quotes s) = negb q ->
    (forall t vs,
       ((forall r, s <> String DQUOTE r) -> forall r, t <> String DQUOTE r) ->
       scan (cur_r +:+ t) false EmptyString vs = scan t q cur_s vs) ->
    scan s q cur_s vals = vals ++ flat_map parseCsvLine (regex_split_go s cur_r)
    /\ Forall (fun piece => length (parseCsvLine piece) = 1%nat)
         (regex_split_go s cur_r).
Proof.
  induction s as [s IH] using string_length_ind.
  intros q cur_s cur_r vals Hpar Hinv.
  assert (Hpiece : (forall r, s <> String DQUOTE r) -> q = false ->
                   parseCsvLine cur_r = [cur_s]).
  { intros Hs ->. unfold parseCsvLine.
    pose proof (Hinv EmptyString [] (fun _ r => ltac:(discriminate))) as E.
    now rewrite append_empty_r in E. }
  destruct s as [|c rest].
  - cbn [count_quotes Nat.even] in Hpar. destruct q; [discriminate |].
    cbn [scan regex_split_go flat_map].
    rewrite Hpiece by (reflexivity || discriminate).
    split; [reflexivity |]. constructor; [| constructor].
    now rewrite Hpiece by (reflexivity || discriminate).
  - cbn [count_quotes] in Hpar. cbn [scan regex_split_go].
    destruct (Ascii.eqb_spec c DQUOTE) as [-> | Hc].
    + change (Ascii.eqb DQUOTE COMMA) with false. cbn [andb].
      cbn [Nat.add] in Hpar.
      assert (Htoggle :
                (forall t vs,
                   ((forall r, rest <> String DQUOTE r) ->
                    forall r, t <> String DQUOTE r) ->
                   scan (String DQUOTE t) q cur_s vs = scan t (negb q) cur_s vs) ->
                scan rest (negb q) cur_s vals
                = vals ++ flat_map parseCsvLine (regex_split_go rest (snoc cur_r DQUOTE))
                /\ Forall (fun piece => length (parseCsvLine piece) = 1%nat)
                     (regex_split_go rest (snoc cur_r DQUOTE))).
      { intros Hstep. apply IH; [shorter | |].
        - rewrite Nat.even_succ, <- Nat.negb_even in Hpar.
          destruct q, (Nat.even (count_quotes rest)); cbn in *; congruence.
        - intros t vs Ht. rewrite snoc_append.
          rewrite Hinv by (intros Hs; exfalso; now apply (Hs rest)).
          now apply Hstep. }
      destruct q; [destruct rest as [|next rest'] |].
      * apply Htoggle. intros t vs Ht. cbn [scan]. rewrite Ascii.eqb_refl.
        destruct t as [|n t']; [reflexivity |].
        destruct (Ascii.eqb_spec n DQUOTE) as [-> | Hn]; [| reflexivity].
        exfalso. now apply (Ht ltac:(discriminate) t').
      * destruct (Ascii.eqb_spec next DQUOTE) as [-> | Hn].
        -- cbn [regex_split_go]. change (Ascii.eqb DQUOTE COMMA) with false.
           cbn [andb]. apply IH; [shorter | |].
           ++ cbn [count_quotes] in Hpar.
              change (Ascii.eqb DQUOTE DQUOTE) with true in Hpar.
              cbn [Nat.add] in Hpar. now rewrite Nat.even_succ_succ in Hpar.
           ++ intros t vs _. rewrite !snoc_append.
              rewrite Hinv by (intros Hs; exfalso; now apply (Hs (String DQUOTE rest'))).
              cbn [scan]. now rewrite !Ascii.eqb_refl.
        -- apply Htoggle. intros t vs Ht. cbn [scan]. rewrite Ascii.eqb_refl.
           destruct t as [|n t']; [reflexivity |].
           destruct (Ascii.eqb_spec n DQUOTE) as [-> | Hn']; [| reflexivity].
           exfalso. apply (Ht ltac:(intros r E; injection E; congruence) t').
           reflexivity.
      * apply Htoggle. intros t vs _. cbn [scan]. now rewrite Ascii.eqb_refl.
    + cbn [Nat.add] in Hpar.
      assert (Hliteral :
                scan rest q (snoc cur_s c) vals
                = vals ++ flat_map parseCsvLine (regex_split_go rest (snoc cur_r c))
                /\ Forall (fun piece => length (parseCsvLine piece) = 1%nat)
                     (regex_split_go rest (snoc cur_r c))
                \/ (Ascii.eqb c COMMA && negb q = true)).
      { destruct (Ascii.eqb c COMMA && negb q) eqn:Ecut; [now right | left].
        apply IH; [shorter | assumption |].
        intros t vs _. rewrite snoc_append.
        rewrite Hinv by (intros _ r E; injection E; congruence).
        cbn [scan]. destruct (Ascii.eqb_spec c DQUOTE); [contradiction |].
        now rewrite Ecut. }
      destruct Hliteral as [Hlit | Hcut].
      * assert (Ecut : Ascii.eqb c COMMA && Nat.even (count_quotes rest)
                       = Ascii.eqb c COMMA && negb q) by now rewrite Hpar.
        rewrite Ecut. destruct (Ascii.eqb c COMMA && negb q) eqn:E; [| exact Hlit].
        clear Hlit. apply andb_true_iff in E as [_ Eq].
        apply negb_true_iff in Eq. subst q.
        destruct (IH rest ltac:(shorter) false EmptyString EmptyString (vals ++ [cur_s])
                    Hpar (fun t vs _ => eq_refl)) as [Hscan Hall].
        rewrite Hscan. cbn [flat_map].
        rewrite Hpiece by (reflexivity || intros r E; injection E; congruence).
        split; [now rewrite <- app_assoc |].
        constructor; [| exact Hall].
        now rewrite Hpiece by (reflexivity || intros r E; injection E; congruence).
      * rewrite Hpar, Hcut.
        apply andb_true_iff in Hcut as [_ Eq].
        apply negb_true_iff in Eq. subst q.
        destruct (IH rest ltac:(shorter) false EmptyString EmptyString (vals ++ [cur_s])
                    Hpar (fun t vs _ => eq_refl)) as [Hscan Hall].
        rewrite Hscan. cbn [flat_map].
        rewrite Hpiece by (reflexivity || intros r E; injection E; congruence).
        split; [now rewrite <- app_assoc |].
        constructor; [| exact Hall].
        now rewrite Hpiece by (reflexivity || intros r E; injection E; congruence).
Qed.

Lemma flat_map_singletons {A B : Type} (f : A -> list B) (l : list A) :
  Forall (fun x => length (f x) = 1%nat) l -> length (flat_map f l) = length l.
Proof.
  induction 1 as [|x l Hx _ IH]; cbn [flat_map length]; [reflexivity |].
  rewrite length_app. lia.
Qed.

(** X20. The quoting of a line is balanced exactly when the line holds an
    even number of quote characters, and on such a line the regular
    expression cuts at the commas where the scanner separates fields: the
    scanner reads each piece as one field, and the fields of the line are
    the fields of the pieces, in order.  The pieces, joined with commas,
    are the line, whatever its quoting. *)
Theorem balanced_line_same_cuts (line : string) :
  balanced line = true ->
  Nat.even (count_quotes line) = true
  /\ parseCsvLine line = flat_map parseCsvLine (regex_split line)
  /\ Forall (fun piece => length (parseCsvLine piece) = 1%nat) (regex_split line)
  /\ length (regex_split line) = length (parseCsvLine line)
  /\ String.concat "," (regex_split line) = line.
Proof.
  intros Hb. rewrite balanced_even in Hb.
  destruct (scan_regex_pieces line false EmptyString EmptyString [] Hb
              (fun t vs _ => eq_refl)) as [Hscan Hall].
  split; [exact Hb |]. split; [exact Hscan |]. split; [exact Hall |]. split.
  - unfold parseCsvLine at 1. rewrite Hscan. cbn [app].
    symmetry. now apply flat_map_singletons.
  - apply (regex_split_go_concat line EmptyString).
Qed.

Lemma balanced_line_same_cuts_witness :
  Nat.even (count_quotes LINE_TWO_QUOTED_COMMAS) = true
  /\ parseCsvLine LINE_TWO_QUOTED_COMMAS
     = flat_map parseCsvLine (regex_split LINE_TWO_QUOTED_COMMAS)
  /\ Forall (fun piece => length (parseCsvLine piece) = 1%nat)
       (regex_split LINE_TWO_QUOTED_COMMAS)
  /\ length (regex_split LINE_TWO_QUOTED_COMMAS)
     = length (parseCsvLine LINE_TWO_QUOTED_COMMAS)
  /\ String.concat "," (regex_split LINE_TWO_QUOTED_COMMAS) = LINE_TWO_QUOTED_COMMAS.
Proof.
  apply (balanced_line_same_cuts LINE_TWO_QUOTED_COMMAS). reflexivity.
Defined.

(** *** Quoted fields under the two readings *)

Lemma string_rev_snoc (s : string) (c : ascii) :
  string_rev (snoc s c) = String c (string_rev s).
Proof.
  unfold snoc. induction s as [|d s IH]; [reflexivity |].
  rewrite append_cons. cbn [string_rev]. rewrite IH. reflexivity.
Qed.

Lemma string_rev_involutive (s : string) : string_rev (string_rev s) = s.
Proof.
  induction s as [|c s IH]; [reflexivity |].
  cbn [string_rev]. now rewrite string_rev_snoc, IH.
Qed.

Lemma drop_all_quote_start (fuel : nat) (rest : string) :
  drop_all WHITESPACE fuel (String DQUOTE rest) = String DQUOTE rest.
Proof. destruct fuel; reflexivity. Qed.

Lemma drop_all_quote_end (fuel : nat) (rest : string) :
  drop_all (map string_rev WHITESPACE) fuel (String DQUOTE rest) = String DQUOTE rest.
Proof. destruct fuel; reflexivity. Qed.

(** [trim] leaves a string between quotes as it stands. *)
Lemma trim_between_quotes (e : string) :
  trim (String DQUOTE (snoc e DQUOTE)) = String DQUOTE (snoc e DQUOTE).
Proof.
  unfold trim, trimStart. rewrite drop_all_quote_start.
  unfold trimEnd.
  change (String DQUOTE (snoc e DQUOTE)) with (snoc (String DQUOTE e) DQUOTE).
  rewrite string_rev_snoc, drop_all_quote_end.
  now rewrite <- string_rev_snoc, string_rev_involutive.
Qed.

Lemma strip_trailing_quote_cons (c : ascii) (s : string) :
  s <> EmptyString ->
  strip_trailing_quote (String c s) = String c (strip_trailing_quote s).
Proof. destruct s; [congruence | reflexivity]. Qed.

Lemma strip_trailing_quote_snoc (e : string) :
  strip_trailing_quote (snoc e DQUOTE) = e.
Proof.
  induction e as [|c e IH]; [reflexivity |].
  change (snoc (String c e) DQUOTE) with (String c (snoc e DQUOTE)).
  rewrite strip_trailing_quote_cons, IH; [reflexivity |].
  unfold snoc. destruct e; discriminate.
Qed.

Lemma unescape_cons (c : ascii) (s : string) :
  c <> DQUOTE -> unescape (String c s) = String c (unescape s).
Proof.
  intros Hc. destruct s as [|d s']; [reflexivity |].
  assert (E : Ascii.eqb c DQUOTE = false) by now apply Ascii.eqb_neq.
  cbn [unescape]. rewrite E. reflexivity.
Qed.

Lemma unescape_escape (v : string) : unescape (escape v) = v.
Proof.
  induction v as [|c v IH]; [reflexivity |]. cbn [escape].
  destruct (Ascii.eqb_spec c DQUOTE) as [-> | Hc].
  - change (unescape (String DQUOTE (String DQUOTE (escape v))))
      with (String DQUOTE (unescape (escape v))).
    now rewrite IH.
  - now rewrite unescape_cons, IH.
Qed.

(** The normalization of a value written between quotes, its quotes
    doubled, is the value. *)
Lemma normalize_quoted (v : string) :
  normalize (write_field (true, v)) = v.
Proof.
  unfold write_field. cbn [fst snd].
  change (escape v +:+ String DQUOTE EmptyString) with (snoc (escape v) DQUOTE).
  unfold normalize. rewrite trim_between_quotes.
  unfold strip_quotes. rewrite Ascii.eqb_refl.
  now rewrite strip_trailing_quote_snoc, unescape_escape.
Qed.

Lemma count_quotes_append (s t : string) :
  count_quotes (s +:+ t) = (count_quotes s + count_quotes t)%nat.
Proof.
  induction s as [|c s IH]; [reflexivity |].
  rewrite append_cons. cbn [count_quotes]. rewrite IH. lia.
Qed.

Lemma count_quotes_escape (v : string) :
  count_quotes (escape v) = (2 * count_quotes v)%nat.
Proof.
  induction v as [|c v IH]; [reflexivity |]. cbn [escape count_quotes].
  destruct (Ascii.eqb_spec c DQUOTE) as [-> | Hc].
  - cbn [count_quotes]. rewrite Ascii.eqb_refl, IH. lia.
  - cbn [count_quotes]. destruct (Ascii.eqb_spec c DQUOTE); [contradiction |].
    rewrite IH. lia.
Qed.

Lemma even_double_plus (n m : nat) : Nat.even (2 * n + m) = Nat.even m.
Proof.
  rewrite Nat.even_add, Nat.even_mul. cbn [Nat.even orb].
  now destruct (Nat.even m).
Qed.

(** The expression does not cut inside a value written between quotes. *)
Lemma regex_split_go_quoted (v rest : string) :
  Nat.even (count_quotes rest) = true ->
  forall cur : string,
    regex_split_go (escape v +:+ String DQUOTE rest) cur
    = regex_split_go rest (cur +:+ escape v +:+ String DQUOTE EmptyString).
Proof.
  intros Hrest. induction v as [|c v IH]; intros cur.
  - cbn [escape]. rewrite !append_empty_l. cbn [regex_split_go].
    change (Ascii.eqb DQUOTE COMMA) with false. reflexivity.
  - cbn [escape]. destruct (Ascii.eqb_spec c DQUOTE) as [-> | Hc].
    + rewrite !append_cons. cbn [regex_split_go].
      change (Ascii.eqb DQUOTE COMMA) with false. cbn [andb].
      rewrite IH. f_equal. now rewrite !snoc_append.
    + rewrite !append_cons. cbn [regex_split_go].
      assert (Hodd : Nat.even (count_quotes (escape v +:+ String DQUOTE rest)) = false).
      { rewrite count_quotes_append, count_quotes_escape. cbn [count_quotes].
        rewrite Ascii.eqb_refl, even_double_plus.
        change (1 + count_quotes rest)%nat with (S (count_quotes rest)).
        rewrite Nat.even_succ, <- Nat.negb_even, Hrest. reflexivity. }
      rewrite Hodd, andb_false_r. rewrite IH. f_equal. now rewrite snoc_append.
Qed.

Lemma count_quotes_write_quoted (v : string) :
  Nat.even (count_quotes (write_field (true, v))) = true.
Proof.
  unfold write_field. cbn [fst snd count_quotes]. rewrite Ascii.eqb_refl.
  rewrite count_quotes_append, count_quotes_escape. cbn [count_quotes].
  rewrite Ascii.eqb_refl.
  replace (1 + (2 * count_quotes v + (1 + 0)))%nat
    with (2 * (1 + count_quotes v) + 0)%nat by lia.
  now rewrite even_double_plus.
Qed.

Lemma rejoin_cons (f f' : bool * string) (fs : list (bool * string)) :
  rejoin (f :: f' :: fs) = write_field f +:+ String COMMA (rejoin (f' :: fs)).
Proof. reflexivity. Qed.

Lemma count_quotes_rejoin (fields : list (bool * string)) :
  Forall (fun f => fst f = true) fields ->
  Nat.even (count_quotes (rejoin fields)) = true.
Proof.
  induction 1 as [|[b v] fs Hb Hfs IH]; [reflexivity |].
  cbn [fst] in Hb. subst b. destruct fs as [|f' fs'].
  - apply count_quotes_write_quoted.
  - rewrite rejoin_cons, count_quotes_append, Nat.even_add.
    rewrite count_quotes_write_quoted. cbn [count_quotes].
    change (Ascii.eqb COMMA DQUOTE) with false. cbn [Nat.add].
    now rewrite IH.
Qed.

Lemma regex_split_go_rejoin (fs : list (bool * string)) :
  forall (f : bool * string) (cur : string),
    Forall (fun f => fst f = true) (f :: fs) ->
    regex_split_go (rejoin (f :: fs)) cur
    = (cur +:+ write_field f) :: map write_field fs.
Proof.
  induction fs as [|f' fs IH]; intros [b v] cur Hall;
    inversion Hall as [|? ? Hb Hrest]; subst; cbn [fst] in Hb; subst b.
  - cbn [rejoin map]. unfold write_field. cbn [fst snd].
    cbn [regex_split_go]. change (Ascii.eqb DQUOTE COMMA) with false. cbn [andb].
    rewrite regex_split_go_quoted by reflexivity. cbn [regex_split_go].
    now rewrite snoc_append.
  - rewrite rejoin_cons. unfold write_field at 1. cbn [fst snd].
    rewrite append_cons, append_assoc, append_cons, append_empty_l.
    cbn [regex_split_go]. change (Ascii.eqb DQUOTE COMMA) with false. cbn [andb].
    rewrite regex_split_go_quoted.
    + cbn [regex_split_go]. rewrite Ascii.eqb_refl.
      rewrite (count_quotes_rejoin (f' :: fs) Hrest). cbn [andb].
      rewrite (IH f' EmptyString Hrest). rewrite append_empty_l.
      cbn [map]. f_equal. unfold write_field. cbn [fst snd].
      now rewrite snoc_append.
    + cbn [count_quotes]. change (Ascii.eqb COMMA DQUOTE) with false.
      cbn [Nat.add]. apply (count_quotes_rejoin (f' :: fs) Hrest).
Qed.

(** X21. On a line whose fields are all written between quotes, their
    quotes doubled, the variant with the regular expression stores the
    written values as they are, and the variant with the scanner stores them
    normalized once more: trimmed, without a quote at the start and at the
    end, their pairs of quotes made single. *)
Theorem quoted_line_values (fields : list (bool * string)) :
  fields <> [] ->
  Forall (fun f => fst f = true) fields ->
  map normalize (regex_split (rejoin fields)) = map snd fields
  /\ map normalize (parseCsvLine (rejoin fields))
     = map normalize (map snd fields).
Proof.
  intros Hne Hall. split.
  - destruct fields as [|f fs]; [congruence |].
    unfold regex_split. rewrite (regex_split_go_rejoin fs f EmptyString Hall).
    rewrite append_empty_l.
    change (write_field f :: map write_field fs) with (map write_field (f :: fs)).
    rewrite map_map. apply map_ext_in. intros [b v] Hin.
    rewrite List.Forall_forall in Hall. specialize (Hall _ Hin).
    cbn [fst] in Hall. subst b. apply normalize_quoted.
  - unfold parseCsvLine. rewrite scan_rejoin; [reflexivity | assumption |].
    unfold writable. rewrite List.Forall_forall in *.
    intros f Hin Hfalse. specialize (Hall f Hin). congruence.
Qed.

Lemma quoted_line_values_witness :
  map normalize (regex_split (rejoin [(true, "a,b"); (true, " x ")]))
  = map snd [(true, "a,b"); (true, " x ")]
  /\ map normalize (parseCsvLine (rejoin [(true, "a,b"); (true, " x ")]))
     = map normalize (map snd [(true, "a,b"); (true, " x ")]).
Proof.
  apply (quoted_line_values [(true, "a,b"); (true, " x ")]).
  - discriminate.
  - repeat constructor.
Defined.

(** *** The highlight of the search term *)

Lemma trim_empty : trim EmptyString = EmptyString.
Proof. reflexivity. Qed.

Lemma escapeHighlight_empty (highlight : string) :
  escapeHighlight highlight = EmptyString <-> highlight = EmptyString.
Proof.
  destruct highlight as [|c rest]; [tauto |]. cbn [escapeHighlight].
  destruct (is_special c); split; discriminate.
Qed.

Lemma backslash_special : is_special BACKSLASH = true.
Proof. reflexivity. Qed.

Lemma escapeHighlight_injective (a : string) :
  forall b : string, escapeHighlight a = escapeHighlight b -> a = b.
Proof.
  induction a as [|c a IH]; intros [|d b] E; cbn [escapeHighlight] in E.
  - reflexivity.
  - destruct (is_special d); discriminate.
  - destruct (is_special c); discriminate.
  - destruct (is_special c) eqn:Ec, (is_special d) eqn:Ed.
    + injection E as -> E. f_equal. now apply IH.
    + injection E as <- _. now rewrite backslash_special in Ed.
    + injection E as -> _. now rewrite backslash_special in Ec.
    + injection E as -> E. f_equal. now apply IH.
Qed.

(** X22. The second early return of [HighlightedText] is never taken: the
    escaped term is empty only when the term is, and a term that is empty
    or white space has left by the first return.  The escaping loses
    nothing: two terms with the same escaped form are the same term. *)
Theorem highlight_pattern_built (text : option string) (highlight : string) :
  highlight_guard text highlight <> EmptyPattern
  /\ (escapeHighlight highlight = EmptyString <-> highlight = EmptyString)
  /\ (forall other, escapeHighlight highlight = escapeHighlight other ->
        highlight = other).
Proof.
  split; [| split].
  - unfold highlight_guard.
    destruct (negb (truthy (trim highlight))
              || negb (match text with Some t => truthy t | None => false end))
      eqn:Eg; [discriminate |].
    apply orb_false_iff in Eg as [Et _]. apply negb_false_iff in Et.
    assert (Hne : highlight <> EmptyString).
    { intros ->. now rewrite trim_empty in Et. }
    assert (He : truthy (escapeHighlight highlight) = true).
    { apply truthy_true. now rewrite escapeHighlight_empty. }
    cbv zeta. rewrite He. discriminate.
  - apply escapeHighlight_empty.
  - apply escapeHighlight_injective.
Qed.

(** *** A fetch that succeeds *)

Lemma fetchEnd_lastUpdated rows_of outcome now s :
  lastUpdated (fetchEnd rows_of outcome now s)
  = if failed outcome then lastUpdated s else Some now.
Proof.
  unfold failed. end_cases s outcome; reflexivity.
Qed.

Lemma fetchEnd_mounted rows_of outcome now s :
  isInitialMount (fetchEnd rows_of outcome now s) = false
  /\ isLoading (fetchEnd rows_of outcome now s)
     = (if isInitialMount s then false else isLoading s).
Proof.
  end_cases s outcome; split; reflexivity.
Qed.

(** The loading flag follows the ref also when runs overlap. *)
Lemma overlapped_loading rows_of (pending : nat) (s : Feed) :
  feed_overlapped rows_of pending s -> isLoading s = isInitialMount s.
Proof.
  induction 1 as [| pending s _ IH | pending s outcome now _ IH].
  - reflexivity.
  - unfold fetchStart. destruct s as [? ? ? ? [|]]; [reflexivity | exact IH].
  - destruct (fetchEnd_mounted rows_of outcome now s) as [-> ->].
    now destruct (isInitialMount s).
Qed.

(** X23. A run that succeeds with a body of at least two lines publishes,
    when it ends, the rows of the body and the time, lowers the loading
    flag and writes no error: the error state stays as the run finds it at
    its end, also when other runs overlap it.  So the result area shows no
    spinner; it shows no banner when the error state was clear, and still
    shows the banner of another run that ended with a message after this
    run started.  A run that no other run overlaps leaves the error state
    clear. *)
Theorem successful_fetch_publishes (H : Host) (s : Main.App) (before : Feed)
    (pending : nat) (status : Z) (csvText : string) (now : Z) :
  feed_overlapped Main.rows_of (S pending) before ->
  response_ok status = true ->
  (2 <= length (split_lines (trim csvText)))%nat ->
  data (fetchEnd Main.rows_of (Responded status csvText) now before)
  = Main.rows_of (split_lines (trim csvText))
  /\ lastUpdated (fetchEnd Main.rows_of (Responded status csvText) now before)
     = Some now
  /\ error (fetchEnd Main.rows_of (Responded status csvText) now before)
     = error before
  /\ main_view
       (with_feed (fetchEnd Main.rows_of (Responded status csvText) now before) s)
     <> Spinner
  /\ (error before = None ->
      forall message,
        main_view
          (with_feed (fetchEnd Main.rows_of (Responded status csvText) now before) s)
        <> ErrorBanner message)
  /\ (forall message,
        error before = Some message -> message <> EmptyString ->
        main_view
          (with_feed (fetchEnd Main.rows_of (Responded status csvText) now before) s)
        = ErrorBanner message)
  /\ (forall alone,
        error (Main.fetchData (Responded status csvText) now alone) = None).
Proof.
  intros Hrun Hok Hlines.
  set (after := fetchEnd Main.rows_of (Responded status csvText) now before).
  assert (Hlong : (length (split_lines (trim csvText)) <? 2)%nat = false)
    by (apply Nat.ltb_ge; lia).
  assert (Hd : data after = Main.rows_of (split_lines (trim csvText))).
  { unfold after. rewrite fetchEnd_data, Hok. cbv zeta. now rewrite Hlong. }
  assert (He : error after = error before).
  { unfold after. rewrite fetchEnd_error, Hok, Hlong. reflexivity. }
  assert (Hl : isLoading after = false).
  { unfold after.
    destruct (fetchEnd_mounted Main.rows_of (Responded status csvText) now before)
      as [_ ->].
    rewrite <- (overlapped_loading Main.rows_of _ before Hrun).
    now destruct (isLoading before). }
  split; [exact Hd |]. split.
  { unfold after. rewrite fetchEnd_lastUpdated. cbn [failed]. now rewrite Hok. }
  split; [exact He |]. split; [| split; [| split]].
  - unfold main_view, with_feed. cbn [Main.feed]. rewrite Hl, He.
    destruct (error before) as [message |]; [destruct (truthy message) |];
      try discriminate;
      destruct (0 <? length _)%nat; try discriminate;
      destruct (_ || _); discriminate.
  - intros Hclear message. unfold main_view, with_feed. cbn [Main.feed].
    rewrite Hl, He, Hclear.
    destruct (0 <? length _)%nat; [discriminate |].
    destruct (_ || _); discriminate.
  - intros message Hmsg Hne. unfold main_view, with_feed. cbn [Main.feed].
    rewrite Hl, He, Hmsg.
    now rewrite (proj2 (truthy_true message) Hne).
  - intros alone. unfold Main.fetchData.
    rewrite fetchData_with_error, Hok, Hlong. reflexivity.
Qed.

(** The first run publishes two rows after the run of the timer has ended
    with the header line alone: the banner of that run is still shown. *)
Lemma successful_fetch_publishes_witness :
  length (data (fetchEnd Main.rows_of (Responded 200 BODY_TWO_ROWS) 2
                  FEED_TIMER_RUN_ENDED)) = 2%nat
  /\ main_view (H := byte_host)
       (with_feed (fetchEnd Main.rows_of (Responded 200 BODY_TWO_ROWS) 2
                     FEED_TIMER_RUN_ENDED) Main.initial)
     = ErrorBanner MSG_SHEET_EMPTY.
Proof.
  split; [vm_compute; reflexivity |].
  assert (Hrun : feed_overlapped Main.rows_of 1 FEED_TIMER_RUN_ENDED).
  { apply overlapped_ended, overlapped_started, overlapped_started,
      overlapped_mounted. }
  assert (Hok : response_ok 200 = true) by reflexivity.
  assert (Hlines : (2 <= length (split_lines (trim BODY_TWO_ROWS)))%nat)
    by (vm_compute; lia).
  assert (Hmsg : error FEED_TIMER_RUN_ENDED = Some MSG_SHEET_EMPTY)
    by (vm_compute; reflexivity).
  assert (Hne : MSG_SHEET_EMPTY <> EmptyString) by discriminate.
  exact (proj1 (proj2 (proj2 (proj2 (proj2 (proj2
           (successful_fetch_publishes byte_host Main.initial
              FEED_TIMER_RUN_ENDED 0 200 BODY_TWO_ROWS 2 Hrun Hok Hlines))))))
           MSG_SHEET_EMPTY Hmsg Hne).
Defined.

(** X24. On a sheet whose data lines hold no quote character the two
    variants build the same records: the variant with the scanner publishes
    the records of the other variant that have some content. *)
Theorem plain_sheet_rows (lines : list string) :
  Forall (fun line => count_quotes line = 0%nat) (tl lines) ->
  Main.rows_of lines = List.filter has_content (Alt.rows_of lines).
Proof.
  intros Hplain. unfold Main.rows_of, Alt.rows_of. cbv zeta. f_equal.
  apply map_ext_in. intros line Hin.
  rewrite List.Forall_forall in Hplain. specialize (Hplain line Hin).
  f_equal. unfold parseCsvLine, regex_split.
  rewrite (plain_scan_split line EmptyString [] Hplain).
  now rewrite (plain_regex_split line EmptyString Hplain).
Qed.

Lemma plain_sheet_rows_witness :
  Main.rows_of (split_lines (trim BODY_BLANK_ROW))
  = List.filter has_content (Alt.rows_of (split_lines (trim BODY_BLANK_ROW))).
Proof.
  apply (plain_sheet_rows (split_lines (trim BODY_BLANK_ROW))).
  vm_compute. repeat constructor.
Defined.
